(** * TLS session state: canonical codec and encrypted envelope

    A shallow embedding of [src/tls/tls_session.cpp] (Botan, namespace
    [Botan::TLS]): the [Session] record, [Session::DER_encode], the
    constructor [Session::Session(const byte ber[], size_t ber_len)],
    [Session::encrypt] and [Session::decrypt].

    Bytes are [Byte.byte]; C++ unsigned integers are [Z] with the wrap-around
    of each conversion written out; exceptions are values of [exception]
    carried by [result] (code that can only throw) or [outcome] (code that
    also reads raw buffers or loops). *)

From Stdlib Require Import String Ascii.
From Stdlib.Strings Require Import Byte.
From Stdlib Require Import ZArith List Bool Lia.
Import ListNotations.
Local Open Scope Z_scope.

Abbreviation byte := Byte.byte.

(** ** Bytes and machine integers *)

Definition Z_of_byte (b : byte) : Z := Z.of_N (Byte.to_N b).

(** [static_cast<byte>(z)]: the low eight bits. *)
Definition byte_of_Z (z : Z) : byte :=
  match Byte.of_N (Z.to_N (z mod 256)) with
  | Some b => b
  | None => Byte.x00
  end.

Definition sizeof_size_t : Z := 8.
Definition sizeof_u16bit : Z := 2.
Definition sizeof_byte : Z := 1.

(** [static_cast<size_t>(z)] *)
Definition static_cast_size_t (z : Z) : Z := z mod 2 ^ (8 * sizeof_size_t).

(** [static_cast<time_t>(n)] of a [size_t]: two's complement, 64 bits. *)
Definition static_cast_time_t (n : Z) : Z :=
  let m := n mod 2 ^ 64 in if m <? 2 ^ 63 then m else m - 2 ^ 64.

(** Subtraction of two [size_t] values, as in [buf_len - MAC_OUTPUT_LENGTH]:
    it wraps around below zero. *)
Definition size_t_sub (a b : Z) : Z :=
  if a <? b then a - b + 2 ^ (8 * sizeof_size_t) else a - b.

(** The [n] low-order bytes of [z], most significant first
    ([get_byte(i, z)] for the last [n] indices). *)
Fixpoint be_bytes (n : nat) (z : Z) : list byte :=
  match n with
  | O => []
  | S k => byte_of_Z (Z.shiftr z (8 * Z.of_nat k)) :: be_bytes k z
  end.

(** [acc = (acc << 8) | b] over a byte string. *)
Fixpoint be_value (acc : Z) (bs : list byte) : Z :=
  match bs with
  | [] => acc
  | b :: rest => be_value (Z.lor (Z.shiftl acc 8) (Z_of_byte b)) rest
  end.

(** Modelled from the spec: [store_be] and [load_be] come from a library
    header that is not part of the translated file; the spec fixes the magic
    as "4 bytes, big-endian".  [store_be(u32bit, out)] and
    [load_be<u32bit>(buf, 0)] on four bytes. *)
Definition store_be32 (v : Z) : list byte := be_bytes 4 v.
Definition load_be32 (bs : list byte) : Z := be_value 0 bs.

(** ** Exceptions *)

(** [BER_Decoding_Error] and [BER_Bad_Tag] derive from [Decoding_Error],
    and all of them from [std::exception]. *)
Inductive exception_class : Type :=
| Decoding_Error
| BER_Decoding_Error
| BER_Bad_Tag.

Record exception : Type := mk_exception
  { exn_class : exception_class;
    what : string }.

(** A computation that returns or throws. *)
Inductive result (A : Type) : Type :=
| Returns (a : A)
| Raises (e : exception).
Arguments Returns {A} a.
Arguments Raises {A} e.

(** A computation that returns, throws, reads outside a buffer
    (undefined behaviour in the source) or exhausts the loop budget of the
    model. *)
Inductive outcome (A : Type) : Type :=
| Ok (a : A)
| Throw (e : exception)
| OutOfBounds
| OutOfFuel.
Arguments Ok {A} a.
Arguments Throw {A} e.
Arguments OutOfBounds {A}.
Arguments OutOfFuel {A}.

Definition of_result {A} (r : result A) : outcome A :=
  match r with
  | Returns a => Ok a
  | Raises e => Throw e
  end.

Declare Scope result_scope.
Delimit Scope result_scope with result.
Notation "' p <- e ;; k" :=
  (match e with
   | Returns p => k
   | Raises err => Raises err
   end)
  (at level 61, p pattern, e at next level, right associativity) : result_scope.
Notation "e1 ;; e2" :=
  (match e1 with
   | Returns _ => e2
   | Raises err => Raises err
   end)
  (at level 61, right associativity) : result_scope.

(** ** DER encoder

    Modelled from the spec: the library classes [DER_Encoder] and
    [BER_Decoder] are not part of the translated source file.  The spec
    describes the container as "an ordered sequence of tagged values, lengths
    explicit" built from "integer, length-prefixed bytes, length-prefixed
    text"; the source names the ASN.1 tags [SEQUENCE], [OCTET_STRING],
    [UTF8_STRING] and encodes integers with [encode(size_t)].  The
    definitions below are the X.690 distinguished encoding of exactly these
    four kinds of value: one identifier byte, a definite length (short form
    up to 127, otherwise [0x80 | k] followed by [k] length bytes), then the
    contents. *)
Module DER.

Definition INTEGER : Z := 0x02.
Definition OCTET_STRING : Z := 0x04.
Definition UTF8_STRING : Z := 0x0C.
(** [SEQUENCE | CONSTRUCTED] *)
Definition SEQUENCE : Z := 0x30.
(** What [get_next_object] reports at the end of the data. *)
Definition NO_OBJECT : Z := 0xFF00.

(** Number of bits and bytes of a non-negative integer. *)
Definition bits (n : Z) : Z := if n <=? 0 then 0 else Z.log2 n + 1.
Definition bytes (n : Z) : nat := Z.to_nat ((bits n + 7) / 8).

Definition encode_length (len : nat) : list byte :=
  let n := Z.of_nat len in
  if n <=? 127 then [byte_of_Z n]
  else
    let top_byte := bytes n in
    byte_of_Z (Z.lor 0x80 (Z.of_nat top_byte)) :: be_bytes top_byte n.

Definition add_object (type_tag : Z) (contents : list byte) : list byte :=
  byte_of_Z type_tag :: encode_length (length contents) ++ contents.

(** [encode(size_t n)]: an INTEGER, minimal big-endian contents, with a
    leading zero byte when the top bit would otherwise be set. *)
Definition encode_size_t (n : Z) : list byte :=
  if n =? 0 then add_object INTEGER [Byte.x00]
  else
    let extra_zero := (bits n) mod 8 =? 0 in
    add_object INTEGER
      ((if extra_zero then [Byte.x00] else []) ++ be_bytes (bytes n) n).

(** [encode(bytes, OCTET_STRING)] *)
Definition encode_octets (bs : list byte) : list byte :=
  add_object OCTET_STRING bs.

(** [encode(ASN1_String(s, UTF8_STRING))]: the text is carried as its
    bytes. *)
Definition encode_string (s : string) : list byte :=
  add_object UTF8_STRING (list_byte_of_string s).

(** [start_cons(SEQUENCE) ... end_cons()] around already encoded fields. *)
Definition encode_sequence (fields : list byte) : list byte :=
  add_object SEQUENCE fields.

End DER.

(** ** BER decoder

    Modelled from the spec: see [DER] above.  A decoder reads from the front
    of its data source and leaves the rest; every failure is a Decoding
    error. *)
Module BER.
Import DER.
Local Open Scope result_scope.

Record BER_Object : Type := mk_BER_Object
  { type_tag : Z;
    value : list byte }.

Definition BER_error (msg : string) : exception :=
  mk_exception BER_Decoding_Error (String.append "BER: " msg).

Definition decode_length (src : list byte) : result (nat * list byte) :=
  match src with
  | [] => Raises (BER_error "Length field not found")
  | b :: rest =>
      let z := Z_of_byte b in
      if Z.land z 0x80 =? 0 then Returns (Z.to_nat z, rest)
      else
        let k := Z.to_nat (Z.land z 0x7F) in
        if (k =? 0)%nat then
          Raises (BER_error "Indefinite length is not part of the schema")
        else if (4 <? k)%nat then
          Raises (BER_error "Length field is too large")
        else if (length rest <? k)%nat then
          Raises (BER_error "Corrupted length field")
        else Returns (Z.to_nat (be_value 0 (firstn k rest)), skipn k rest)
  end.

Definition get_next_object (src : list byte)
  : result (BER_Object * list byte) :=
  match src with
  | [] => Returns (mk_BER_Object NO_OBJECT [], [])
  | t :: rest =>
      '(len, rest') <- decode_length rest ;;
      if (length rest' <? len)%nat then
        Raises (BER_error "Value truncated")
      else
        Returns (mk_BER_Object (Z_of_byte t) (firstn len rest'),
                 skipn len rest')
  end.

(** [BER_Object::assert_is_a] *)
Definition assert_is_a (obj : BER_Object) (tag : Z) : result unit :=
  if type_tag obj =? tag then Returns tt
  else Raises (mk_exception BER_Bad_Tag "BER: Tag mismatch when decoding").

(** The non-negative integer held by the next INTEGER, which must fit
    [T_bytes] bytes ([decode_integer_type<T>], [decode(size_t&)]). *)
Definition decode_constrained_integer (T_bytes : Z) (src : list byte)
  : result (Z * list byte) :=
  '(obj, rest) <- get_next_object src ;;
  assert_is_a obj INTEGER ;;
  match value obj with
  | [] => Returns (0, rest)
  | b :: _ =>
      if Z.land (Z_of_byte b) 0x80 =? 0 then
        let n := be_value 0 (value obj) in
        if 8 * T_bytes <? bits n then
          Raises (BER_error "Decoded integer value larger than expected")
        else Returns (n, rest)
      else Raises (BER_error "Decoded integer value is negative")
  end.

Definition decode_size_t : list byte -> result (Z * list byte) :=
  decode_constrained_integer sizeof_size_t.

(** [decode_and_check(expected, error_msg)] *)
Definition decode_and_check (expected : Z) (error_msg : string)
    (src : list byte) : result (unit * list byte) :=
  '(actual, rest) <- decode_size_t src ;;
  if actual =? expected then Returns (tt, rest)
  else Raises (mk_exception Decoding_Error error_msg).

(** [decode(bytes, OCTET_STRING)] *)
Definition decode_octets (src : list byte)
  : result (list byte * list byte) :=
  '(obj, rest) <- get_next_object src ;;
  assert_is_a obj OCTET_STRING ;;
  Returns (value obj, rest).

(** [decode(ASN1_String&)] followed by [value()] *)
Definition decode_string (src : list byte) : result (string * list byte) :=
  '(obj, rest) <- get_next_object src ;;
  assert_is_a obj UTF8_STRING ;;
  Returns (string_of_list_byte (value obj), rest).

(** [start_cons(SEQUENCE)]: the contents of the sequence become the data of
    a nested decoder; the parent keeps what follows. *)
Definition start_cons (tag : Z) (src : list byte)
  : result (list byte * list byte) :=
  '(obj, rest) <- get_next_object src ;;
  assert_is_a obj tag ;;
  Returns (value obj, rest).

(** [end_cons()]: the nested decoder must be exhausted. *)
Definition end_cons (inner : list byte) : result unit :=
  match inner with
  | [] => Returns tt
  | _ :: _ =>
      Raises (mk_exception Decoding_Error
                "BER_Decoder::end_cons called with data left")
  end.

(** [verify_end()] *)
Definition verify_end (src : list byte) : result unit :=
  match src with
  | [] => Returns tt
  | _ :: _ =>
      Raises (mk_exception Decoding_Error
                "BER_Decoder::verify_end called, but data remains")
  end.

End BER.

(** ** External collaborators

    The session code consumes these through interfaces only; each is a class
    of the library whose implementation lies outside the translated file. *)

(** [X509_Certificate]: [BER_encode()] and the constructor reading one
    certificate from the front of a [DataSource], which reports how many
    bytes it consumed. *)
Class X509_Codec : Type :=
  { X509_Certificate : Type;
    X509_BER_encode : X509_Certificate -> list byte;
    X509_decode : list byte -> result (X509_Certificate * nat) }.

(** [KDF::derive_key(key_len, secret, salt)] *)
Class KDF : Type :=
  { derive_key : Z -> list byte -> list byte -> list byte }.

(** [MessageAuthenticationCode]: [set_key], [update], [final] as one
    function of the key and the data. *)
Class MessageAuthenticationCode : Type :=
  { mac_final : list byte -> list byte -> list byte }.

(** [get_cipher(name, key, iv, direction)] run through a [Pipe]; decryption
    can reject its input. *)
Class Cipher : Type :=
  { cipher_encrypt : list byte -> list byte -> list byte -> list byte;
    cipher_decrypt : list byte -> list byte -> list byte -> result (list byte) }.

(** [RandomNumberGenerator::random_vec(n)], threading the generator. *)
Class RandomNumberGenerator : Type :=
  { rng_state : Type;
    random_vec : rng_state -> Z -> list byte * rng_state }.

(** Constants the translated file takes from headers: the format-version
    marker and the tick rate of [std::chrono::system_clock]. *)
Class Platform : Type :=
  { TLS_SESSION_PARAM_STRUCT_VERSION : Z;
    system_clock_ticks_per_second : Z }.

(** Modelled from the spec: [same_mem] is a library function, which the spec
    calls "a constant-time comparison": it folds the differences of all [n]
    byte pairs into one value and tests that value once.
    [same_mem(p1, p2, n)] over two byte strings of the [n] bytes read. *)
Fixpoint same_mem_difference (difference : Z) (p1 p2 : list byte) : Z :=
  match p1, p2 with
  | a :: p1', b :: p2' =>
      same_mem_difference
        (Z.lor difference (Z.lxor (Z_of_byte a) (Z_of_byte b))) p1' p2'
  | _, _ => difference
  end.

Definition same_mem (p1 p2 : list byte) : bool :=
  same_mem_difference 0 p1 p2 =? 0.

(** ** The session record *)

Record Protocol_Version : Type := mk_Protocol_Version
  { major_version : Z;
    minor_version : Z }.

(** The enum is carried by its integer value, which is what
    [static_cast<Connection_Side>(side_code)] keeps. *)
Inductive Connection_Side : Type :=
| Connection_Side_of_code (code : Z).

Definition side_code_of (s : Connection_Side) : Z :=
  match s with Connection_Side_of_code c => c end.

Record Server_Information : Type := mk_Server_Information
  { hostname : string;
    service : string;
    port : Z }.

(** Constants of the anonymous namespace. *)
Definition SESSION_CRYPTO_MAGIC : Z := 0x571B0E4F.
Definition MAGIC_LENGTH : Z := 4.
Definition KEY_KDF_SALT_LENGTH : Z := 10.
Definition MAC_KEY_LENGTH : Z := 32.
Definition CIPHER_KEY_LENGTH : Z := 32.
Definition CIPHER_IV_LENGTH : Z := 16.
Definition MAC_OUTPUT_LENGTH : Z := 32.

Inductive Cipher_Dir : Type := ENCRYPTION | DECRYPTION.

(** Calls made to the cryptographic collaborators, in program order. *)
Inductive call : Type :=
| Call_derive_key (key_len : Z) (secret salt : list byte)
| Call_mac (key data : list byte)
| Call_cipher (dir : Cipher_Dir) (key iv input : list byte).

(** A computation together with the calls it made. *)
Definition traced (A : Type) : Type := (list call * outcome A)%type.

Definition calls_of {A} (m : traced A) : list call := fst m.
Definition outcome_of {A} (m : traced A) : outcome A := snd m.

Definition ret {A} (a : A) : traced A := ([], Ok a).
Definition throw {A} (e : exception) : traced A := ([], Throw e).
Definition lift {A} (o : outcome A) : traced A := ([], o).
Definition record_call {A} (c : call) (a : A) : traced A := ([c], Ok a).

Definition bind {A B} (m : traced A) (k : A -> traced B) : traced B :=
  match m with
  | (cs, Ok a) => let (cs', r) := k a in (cs ++ cs', r)
  | (cs, Throw e) => (cs, Throw e)
  | (cs, OutOfBounds) => (cs, OutOfBounds)
  | (cs, OutOfFuel) => (cs, OutOfFuel)
  end.

(** [try { body } catch(std::exception& e) { handler }] *)
Definition try_catch {A} (body : traced A) (handler : exception -> traced A)
  : traced A :=
  match body with
  | (cs, Throw e) => let (cs', r) := handler e in (cs ++ cs', r)
  | other => other
  end.

Declare Scope traced_scope.
Delimit Scope traced_scope with traced.
Notation "x <- m ;; k" := (bind m (fun x => k))
  (at level 61, m at next level, right associativity) : traced_scope.

(** Reading [n] bytes at [&buf[off]]: inside the buffer, or undefined. *)
Definition read (buf : list byte) (off n : Z) : traced (list byte) :=
  if (0 <=? off) && (0 <=? n) && (off + n <=? Z.of_nat (length buf)) then
    ret (firstn (Z.to_nat n) (skipn (Z.to_nat off) buf))
  else lift OutOfBounds.

(** The three exceptions thrown by the body of [Session::decrypt]. *)
Definition too_short : exception :=
  mk_exception Decoding_Error "Encrypted TLS session too short to be valid".
Definition unknown_header : exception :=
  mk_exception Decoding_Error "Unknown header value in encrypted session".
Definition mac_failed : exception :=
  mk_exception Decoding_Error "MAC verification failed for encrypted session".

Section Session.

Context {x509 : X509_Codec} {kdf : KDF} {mac : MessageAuthenticationCode}
        {cipher : Cipher} {rng : RandomNumberGenerator}
        {platform : Platform}.

Record Session : Type := mk_Session
  { m_start_time : Z;
    m_identifier : list byte;
    m_session_ticket : list byte;
    m_master_secret : list byte;
    m_version : Protocol_Version;
    m_ciphersuite : Z;
    m_compression_method : Z;
    m_connection_side : Connection_Side;
    m_fragment_size : Z;
    m_peer_certs : list X509_Certificate;
    m_server_info : Server_Information;
    m_srp_identifier : string }.

(** [std::chrono::system_clock::to_time_t]: whole seconds, truncating. *)
Definition to_time_t (t : Z) : Z := Z.quot t system_clock_ticks_per_second.

(** [std::chrono::system_clock::from_time_t] *)
Definition from_time_t (s : Z) : Z := s * system_clock_ticks_per_second.

(** The loop [peer_cert_bits += m_peer_certs[i].BER_encode()]. *)
Definition encode_peer_certs (certs : list X509_Certificate) : list byte :=
  fold_left (fun bits c => bits ++ X509_BER_encode c) certs [].

(** The fields between [start_cons(SEQUENCE)] and [end_cons()]. *)
Definition DER_fields (s : Session) : list byte :=
  let peer_cert_bits := encode_peer_certs (m_peer_certs s) in
  DER.encode_size_t (static_cast_size_t TLS_SESSION_PARAM_STRUCT_VERSION)
  ++ DER.encode_size_t (static_cast_size_t (to_time_t (m_start_time s)))
  ++ DER.encode_size_t (static_cast_size_t (major_version (m_version s)))
  ++ DER.encode_size_t (static_cast_size_t (minor_version (m_version s)))
  ++ DER.encode_octets (m_identifier s)
  ++ DER.encode_octets (m_session_ticket s)
  ++ DER.encode_size_t (static_cast_size_t (m_ciphersuite s))
  ++ DER.encode_size_t (static_cast_size_t (m_compression_method s))
  ++ DER.encode_size_t
       (static_cast_size_t (side_code_of (m_connection_side s)))
  ++ DER.encode_size_t (static_cast_size_t (m_fragment_size s))
  ++ DER.encode_octets (m_master_secret s)
  ++ DER.encode_octets peer_cert_bits
  ++ DER.encode_string (hostname (m_server_info s))
  ++ DER.encode_string (service (m_server_info s))
  ++ DER.encode_size_t (static_cast_size_t (port (m_server_info s)))
  ++ DER.encode_string (m_srp_identifier s).

(** [Session::DER_encode] *)
Definition DER_encode (s : Session) : list byte :=
  DER.encode_sequence (DER_fields s).

(** The [BER_Decoder] chain of the decoding constructor, up to
    [verify_end()], with the assignments that follow it; the certificate
    chain is still in its encoded form. *)
Definition decode_fields (ber : list byte) : result (Session * list byte) :=
  ('(inner, parent) <- BER.start_cons DER.SEQUENCE ber ;;
   '(_, inner) <- BER.decode_and_check
                   (static_cast_size_t TLS_SESSION_PARAM_STRUCT_VERSION)
                   "Unknown version in session structure" inner ;;
   '(start_time, inner) <- BER.decode_constrained_integer sizeof_size_t inner ;;
   '(major_version, inner) <- BER.decode_constrained_integer sizeof_byte inner ;;
   '(minor_version, inner) <- BER.decode_constrained_integer sizeof_byte inner ;;
   '(identifier, inner) <- BER.decode_octets inner ;;
   '(session_ticket, inner) <- BER.decode_octets inner ;;
   '(ciphersuite, inner) <- BER.decode_constrained_integer sizeof_u16bit inner ;;
   '(compression_method, inner) <-
      BER.decode_constrained_integer sizeof_byte inner ;;
   '(side_code, inner) <- BER.decode_constrained_integer sizeof_byte inner ;;
   '(fragment_size, inner) <-
      BER.decode_constrained_integer sizeof_size_t inner ;;
   '(master_secret, inner) <- BER.decode_octets inner ;;
   '(peer_cert_bits, inner) <- BER.decode_octets inner ;;
   '(server_hostname, inner) <- BER.decode_string inner ;;
   '(server_service, inner) <- BER.decode_string inner ;;
   '(server_port, inner) <- BER.decode_size_t inner ;;
   '(srp_identifier_str, inner) <- BER.decode_string inner ;;
   BER.end_cons inner ;;
   BER.verify_end parent ;;
   Returns
     ({| m_start_time := from_time_t (static_cast_time_t start_time);
         m_identifier := identifier;
         m_session_ticket := session_ticket;
         m_master_secret := master_secret;
         m_version := mk_Protocol_Version major_version minor_version;
         m_ciphersuite := ciphersuite;
         m_compression_method := compression_method;
         m_connection_side := Connection_Side_of_code side_code;
         m_fragment_size := fragment_size;
         m_peer_certs := [];
         m_server_info :=
           mk_Server_Information server_hostname server_service server_port;
         m_srp_identifier := srp_identifier_str |},
      peer_cert_bits))%result.

(** [while(!certs.end_of_data()) m_peer_certs.push_back(X509_Certificate(certs))];
    [fuel] bounds the number of iterations. *)
Fixpoint read_certs (fuel : nat) (certs : list byte)
    (peer_certs : list X509_Certificate)
  : outcome (list X509_Certificate) :=
  match certs with
  | [] => Ok peer_certs
  | _ :: _ =>
      match fuel with
      | O => OutOfFuel
      | S fuel' =>
          match X509_decode certs with
          | Raises e => Throw e
          | Returns (c, consumed) =>
              read_certs fuel' (skipn consumed certs) (peer_certs ++ [c])
          end
      end
  end.

(** [Session::Session(const byte ber[], size_t ber_len)] *)
Definition Session_from_ber (ber : list byte) : outcome Session :=
  match decode_fields ber with
  | Raises e => Throw e
  | Returns (s, peer_cert_bits) =>
      match peer_cert_bits with
      | [] => Ok s
      | _ :: _ =>
          match read_certs (length peer_cert_bits) peer_cert_bits
                  (m_peer_certs s) with
          | Ok certs =>
              Ok {| m_start_time := m_start_time s;
                    m_identifier := m_identifier s;
                    m_session_ticket := m_session_ticket s;
                    m_master_secret := m_master_secret s;
                    m_version := m_version s;
                    m_ciphersuite := m_ciphersuite s;
                    m_compression_method := m_compression_method s;
                    m_connection_side := m_connection_side s;
                    m_fragment_size := m_fragment_size s;
                    m_peer_certs := certs;
                    m_server_info := m_server_info s;
                    m_srp_identifier := m_srp_identifier s |}
          | Throw e => Throw e
          | OutOfBounds => OutOfBounds
          | OutOfFuel => OutOfFuel
          end
      end
  end.

(** [Session::encrypt] *)
Definition encrypt (s : Session) (master_key : list byte) (g : rng_state)
  : list byte * rng_state :=
  let '(cipher_key_salt, g) := random_vec g KEY_KDF_SALT_LENGTH in
  let '(mac_key_salt, g) := random_vec g KEY_KDF_SALT_LENGTH in
  let cipher_key := derive_key CIPHER_KEY_LENGTH master_key cipher_key_salt in
  let mac_key := derive_key MAC_KEY_LENGTH master_key mac_key_salt in
  let '(cipher_iv, g) := random_vec g 16 in
  let ctext := cipher_encrypt cipher_key cipher_iv (DER_encode s) in
  let out := store_be32 SESSION_CRYPTO_MAGIC in
  let out := out ++ cipher_key_salt in
  let out := out ++ mac_key_salt in
  let out := out ++ cipher_iv in
  let out := out ++ ctext in
  let out := out ++ mac_final mac_key out in
  (out, g).

Definition call_derive_key (key_len : Z) (secret salt : list byte)
  : traced (list byte) :=
  record_call (Call_derive_key key_len secret salt)
              (derive_key key_len secret salt).

Definition call_mac (key data : list byte) : traced (list byte) :=
  record_call (Call_mac key data) (mac_final key data).

Definition call_cipher_decrypt (key iv ctext : list byte)
  : traced (list byte) :=
  (Call_cipher DECRYPTION key iv ctext :: [],
   of_result (cipher_decrypt key iv ctext)).

(** The body of the [try] block of [Session::decrypt]. *)
Definition decrypt_body (buf : list byte) (master_key : list byte)
  : traced Session :=
  let buf_len := Z.of_nat (length buf) in
  let MIN_CTEXT_SIZE := 4 * 16 in
  if buf_len <? MAGIC_LENGTH + 2 * KEY_KDF_SALT_LENGTH + CIPHER_IV_LENGTH
                + MIN_CTEXT_SIZE + MAC_OUTPUT_LENGTH
  then throw (mk_exception Decoding_Error
                "Encrypted TLS session too short to be valid")
  else
    (header <- read buf 0 4 ;;
     if negb (load_be32 header =? SESSION_CRYPTO_MAGIC)
     then throw (mk_exception Decoding_Error
                   "Unknown header value in encrypted session")
     else
       mac_key_salt <- read buf (MAGIC_LENGTH + KEY_KDF_SALT_LENGTH)
                            KEY_KDF_SALT_LENGTH ;;
       mac_key <- call_derive_key MAC_KEY_LENGTH master_key mac_key_salt ;;
       data <- read buf 0 (size_t_sub buf_len MAC_OUTPUT_LENGTH) ;;
       computed_mac <- call_mac mac_key data ;;
       tag <- read buf (size_t_sub buf_len MAC_OUTPUT_LENGTH)
                   (Z.of_nat (length computed_mac)) ;;
       if negb (same_mem tag computed_mac)
       then throw (mk_exception Decoding_Error
                     "MAC verification failed for encrypted session")
       else
         cipher_key_salt <- read buf MAGIC_LENGTH KEY_KDF_SALT_LENGTH ;;
         cipher_key <- call_derive_key CIPHER_KEY_LENGTH master_key
                                       cipher_key_salt ;;
         cipher_iv <- read buf (MAGIC_LENGTH + 2 * KEY_KDF_SALT_LENGTH)
                           CIPHER_IV_LENGTH ;;
         let CTEXT_OFFSET :=
           MAGIC_LENGTH + 2 * KEY_KDF_SALT_LENGTH + CIPHER_IV_LENGTH in
         ctext <- read buf CTEXT_OFFSET
                       (size_t_sub buf_len (MAC_OUTPUT_LENGTH + CTEXT_OFFSET)) ;;
         ber <- call_cipher_decrypt cipher_key cipher_iv ctext ;;
         lift (Session_from_ber ber))%traced.

(** [Session::decrypt] *)
Definition decrypt (buf : list byte) (master_key : list byte)
  : traced Session :=
  try_catch (decrypt_body buf master_key)
    (fun e =>
       throw (mk_exception Decoding_Error
                (String.append "Failed to decrypt encrypted session -"
                               (what e)))).

(** *** Well-formed records and collaborators *)

(** Every field holds a value of its C++ type ([time_t], [byte],
    [u16bit], [size_t]), and the encoded fields fit the four length bytes
    the reader accepts. *)
Definition fields_in_range (s : Session) : Prop :=
  - 2 ^ 63 <= to_time_t (m_start_time s) < 2 ^ 63 /\
  0 <= major_version (m_version s) < 2 ^ 8 /\
  0 <= minor_version (m_version s) < 2 ^ 8 /\
  0 <= m_ciphersuite s < 2 ^ 16 /\
  0 <= m_compression_method s < 2 ^ 8 /\
  0 <= side_code_of (m_connection_side s) < 2 ^ 8 /\
  0 <= m_fragment_size s < 2 ^ 64 /\
  0 <= port (m_server_info s) < 2 ^ 16 /\
  Z.of_nat (length (DER_fields s)) < 2 ^ 32.

(** The size of a TLS master secret. *)
Definition MASTER_SECRET_LENGTH : nat := 48.

Definition valid_session (s : Session) : Prop :=
  fields_in_range s /\ length (m_master_secret s) = MASTER_SECRET_LENGTH.

(** Field-by-field equality, the creation time compared in whole
    seconds. *)
Definition same_fields (s s' : Session) : Prop :=
  to_time_t (m_start_time s') = to_time_t (m_start_time s) /\
  m_identifier s' = m_identifier s /\
  m_session_ticket s' = m_session_ticket s /\
  m_master_secret s' = m_master_secret s /\
  m_version s' = m_version s /\
  m_ciphersuite s' = m_ciphersuite s /\
  m_compression_method s' = m_compression_method s /\
  m_connection_side s' = m_connection_side s /\
  m_fragment_size s' = m_fragment_size s /\
  m_peer_certs s' = m_peer_certs s /\
  m_server_info s' = m_server_info s /\
  m_srp_identifier s' = m_srp_identifier s.

(** The creation time is a whole number of seconds, the resolution of the
    spec's data model. *)
Definition whole_seconds (s : Session) : Prop :=
  m_start_time s = from_time_t (to_time_t (m_start_time s)).

(** The record with its creation time cut to whole seconds. *)
Definition at_seconds_resolution (s : Session) : Session :=
  {| m_start_time := from_time_t (to_time_t (m_start_time s));
     m_identifier := m_identifier s;
     m_session_ticket := m_session_ticket s;
     m_master_secret := m_master_secret s;
     m_version := m_version s;
     m_ciphersuite := m_ciphersuite s;
     m_compression_method := m_compression_method s;
     m_connection_side := m_connection_side s;
     m_fragment_size := m_fragment_size s;
     m_peer_certs := m_peer_certs s;
     m_server_info := m_server_info s;
     m_srp_identifier := m_srp_identifier s |}.

(** The record [s] with another connection side. *)
Definition with_connection_side (s : Session) (side : Connection_Side)
  : Session :=
  {| m_start_time := m_start_time s;
     m_identifier := m_identifier s;
     m_session_ticket := m_session_ticket s;
     m_master_secret := m_master_secret s;
     m_version := m_version s;
     m_ciphersuite := m_ciphersuite s;
     m_compression_method := m_compression_method s;
     m_connection_side := side;
     m_fragment_size := m_fragment_size s;
     m_peer_certs := m_peer_certs s;
     m_server_info := m_server_info s;
     m_srp_identifier := m_srp_identifier s |}.

(** The certificate codec reads back what it wrote, consuming exactly
    the bytes written, and writes at least one byte. *)
Definition X509_codec_ok : Prop :=
  forall (c : X509_Certificate) (rest : list byte),
    X509_decode (X509_BER_encode c ++ rest)
    = Returns (c, length (X509_BER_encode c))
    /\ X509_BER_encode c <> [].

(** The cipher decrypts what it encrypted and never shortens its input. *)
Definition cipher_ok : Prop :=
  forall key iv plaintext,
    cipher_decrypt key iv (cipher_encrypt key iv plaintext)
    = Returns plaintext
    /\ (length plaintext <= length (cipher_encrypt key iv plaintext))%nat.

(** The MAC produces [MAC_OUTPUT_LENGTH] bytes. *)
Definition mac_ok : Prop :=
  forall key data,
    Z.of_nat (length (mac_final key data)) = MAC_OUTPUT_LENGTH.

(** [random_vec(n)] produces [n] bytes. *)
Definition rng_ok : Prop :=
  forall g n, 0 <= n -> Z.of_nat (length (fst (random_vec g n))) = n.

(** The clock ticks at a positive rate. *)
Definition clock_ok : Prop := 0 < system_clock_ticks_per_second.

(** *** Parts of an encrypted blob, as [Session::decrypt] slices it *)

Definition blob_mac_key_salt (buf : list byte) : list byte :=
  firstn 10 (skipn 14 buf).
Definition blob_cipher_key_salt (buf : list byte) : list byte :=
  firstn 10 (skipn 4 buf).
Definition blob_cipher_iv (buf : list byte) : list byte :=
  firstn 16 (skipn 24 buf).
Definition blob_authenticated (buf : list byte) : list byte :=
  firstn (length buf - 32) buf.
Definition blob_ctext (buf : list byte) : list byte :=
  firstn (length buf - 72) (skipn 40 buf).
Definition blob_tag (buf : list byte) : list byte :=
  firstn 32 (skipn (length buf - 32) buf).

(** The tag stored in the blob is the MAC, under the key derived from the
    stored MAC salt, of everything before the tag. *)
Definition tag_verifies (buf master_key : list byte) : bool :=
  same_mem (blob_tag buf)
    (mac_final
       (derive_key MAC_KEY_LENGTH master_key (blob_mac_key_salt buf))
       (blob_authenticated buf)).

Definition mac_key_of (buf master_key : list byte) : list byte :=
  derive_key MAC_KEY_LENGTH master_key (blob_mac_key_salt buf).

Definition cipher_key_of (buf master_key : list byte) : list byte :=
  derive_key CIPHER_KEY_LENGTH master_key (blob_cipher_key_salt buf).

(** The calls that authenticate a blob, and those that decrypt it. *)
Definition authentication_calls (buf master_key : list byte) : list call :=
  [ Call_derive_key MAC_KEY_LENGTH master_key (blob_mac_key_salt buf);
    Call_mac (mac_key_of buf master_key) (blob_authenticated buf) ].

Definition decryption_calls (buf master_key : list byte) : list call :=
  [ Call_derive_key CIPHER_KEY_LENGTH master_key (blob_cipher_key_salt buf);
    Call_cipher DECRYPTION (cipher_key_of buf master_key)
                (blob_cipher_iv buf) (blob_ctext buf) ].

Definition is_decryption_call (c : call) : bool :=
  match c with
  | Call_cipher _ _ _ _ => true
  | _ => false
  end.

End Session.

(** ** Test doubles

    Small stand-ins for the collaborators, so that the definitions above can
    be run on concrete sessions and blobs. *)
Module Test_Doubles.

(** A rolling checksum of a byte string. *)
Definition digest (bs : list byte) : Z :=
  fold_left (fun acc b => (acc * 33 + Z_of_byte b) mod 2 ^ 61) bs 5381.

(** A certificate is one byte [c], written as the three bytes
    [30 01 c]. *)
Definition test_X509_decode (src : list byte) : result (byte * nat) :=
  match src with
  | t :: l :: c :: _ =>
      if Byte.eqb t Byte.x30 && Byte.eqb l Byte.x01
      then Returns (c, 3%nat)
      else Raises (mk_exception Decoding_Error "X509 decoding failed")
  | _ => Raises (mk_exception Decoding_Error "X509 decoding failed")
  end.

#[export] Instance test_x509 : X509_Codec :=
  {| X509_Certificate := byte;
     X509_BER_encode := fun c => [Byte.x30; Byte.x01; c];
     X509_decode := test_X509_decode |}.

#[export] Instance test_kdf : KDF :=
  {| derive_key := fun key_len secret salt =>
       be_bytes (Z.to_nat key_len) (digest (salt ++ secret)) |}.

#[export] Instance test_mac : MessageAuthenticationCode :=
  {| mac_final := fun key data => be_bytes 32 (digest (key ++ data)) |}.

(** A shift cipher: every byte moved by an amount drawn from the key and
    the IV, followed by one block of padding. *)
Definition shift_of (key iv : list byte) : Z := digest (key ++ iv) mod 256.

Definition test_cipher_decrypt (key iv ctext : list byte)
  : result (list byte) :=
  if (length ctext <? 16)%nat
  then Raises (mk_exception Decoding_Error "Invalid padding")
  else
    Returns
      (map (fun b => byte_of_Z (Z_of_byte b - shift_of key iv))
           (firstn (length ctext - 16) ctext)).

#[export] Instance test_cipher : Cipher :=
  {| cipher_encrypt := fun key iv plaintext =>
       map (fun b => byte_of_Z (Z_of_byte b + shift_of key iv)) plaintext
       ++ repeat Byte.x10 16;
     cipher_decrypt := test_cipher_decrypt |}.

(** A counter in place of a random source. *)
#[export] Instance test_rng : RandomNumberGenerator :=
  {| rng_state := Z;
     random_vec := fun g n =>
       (be_bytes (Z.to_nat n) (digest (be_bytes 8 g)), g + 1) |}.

#[export] Instance test_platform : Platform :=
  {| TLS_SESSION_PARAM_STRUCT_VERSION := 0x2994e301;
     system_clock_ticks_per_second := 1000000000 |}.

(** The session of the spec's example scenario: identifier [01 02], a
    48-byte master secret with a known pattern, ciphersuite [0x002F], no
    certificates, server [example.com], [https], 443. *)
Definition example_session : Session :=
  {| m_start_time := 1332000000123456789;
     m_identifier := [Byte.x01; Byte.x02];
     m_session_ticket := [];
     m_master_secret := repeat Byte.xa5 48;
     m_version := mk_Protocol_Version 3 3;
     m_ciphersuite := 0x002F;
     m_compression_method := 0;
     m_connection_side := Connection_Side_of_code 1;
     m_fragment_size := 0;
     m_peer_certs := [];
     m_server_info := mk_Server_Information "example.com" "https" 443;
     m_srp_identifier := "" |}.

(** The same session with a chain of two certificates. *)
Definition example_session_with_chain : Session :=
  {| m_start_time := 1332000000123456789;
     m_identifier := [Byte.x01; Byte.x02];
     m_session_ticket := [Byte.xaa];
     m_master_secret := repeat Byte.xa5 48;
     m_version := mk_Protocol_Version 3 3;
     m_ciphersuite := 0x002F;
     m_compression_method := 0;
     m_connection_side := Connection_Side_of_code 2;
     m_fragment_size := 512;
     m_peer_certs := [Byte.x41; Byte.x42];
     m_server_info := mk_Server_Information "example.com" "https" 443;
     m_srp_identifier := "user" |}.

(** A session whose master secret has only four bytes. *)
Definition short_secret_session : Session :=
  {| m_start_time := 1332000000123456789;
     m_identifier := [Byte.x01; Byte.x02];
     m_session_ticket := [];
     m_master_secret := [Byte.xde; Byte.xad; Byte.xbe; Byte.xef];
     m_version := mk_Protocol_Version 3 3;
     m_ciphersuite := 0x002F;
     m_compression_method := 0;
     m_connection_side := Connection_Side_of_code 1;
     m_fragment_size := 0;
     m_peer_certs := [];
     m_server_info := mk_Server_Information "example.com" "https" 443;
     m_srp_identifier := "" |}.

(** 32 zero bytes, the key of the example scenario. *)
Definition example_key : list byte := repeat Byte.x00 32.

(** The blob [Session::encrypt] makes of the example session. *)
Definition example_blob : list byte :=
  fst (encrypt example_session example_key 0).

(** The example blob with its last byte (the end of the tag) replaced. *)
Definition forged_blob : list byte :=
  firstn (length example_blob - 1) example_blob ++ [Byte.xff].

(** 136 zero bytes: long enough, but without the magic header. *)
Definition headerless_blob : list byte := repeat Byte.x00 136.

(** An encoded session with a four-byte master secret: a SEQUENCE of the
    version marker, the time, version 3.3, identifier [01 02], an empty
    ticket, ciphersuite [0x2F], compression 0, side 1, fragment size 0,
    the master secret [DE AD BE EF], no certificates, "example.com",
    "https", port 443 and an empty SRP identifier. *)
Definition short_secret_ber : list byte :=
  [ Byte.x30; Byte.x46; Byte.x02; Byte.x04; Byte.x29; Byte.x94;
    Byte.xe3; Byte.x01; Byte.x02; Byte.x04; Byte.x4f; Byte.x64;
    Byte.xb5; Byte.x00; Byte.x02; Byte.x01; Byte.x03; Byte.x02;
    Byte.x01; Byte.x03; Byte.x04; Byte.x02; Byte.x01; Byte.x02;
    Byte.x04; Byte.x00; Byte.x02; Byte.x01; Byte.x2f; Byte.x02;
    Byte.x01; Byte.x00; Byte.x02; Byte.x01; Byte.x01; Byte.x02;
    Byte.x01; Byte.x00; Byte.x04; Byte.x04; Byte.xde; Byte.xad;
    Byte.xbe; Byte.xef; Byte.x04; Byte.x00; Byte.x0c; Byte.x0b;
    Byte.x65; Byte.x78; Byte.x61; Byte.x6d; Byte.x70; Byte.x6c;
    Byte.x65; Byte.x2e; Byte.x63; Byte.x6f; Byte.x6d; Byte.x0c;
    Byte.x05; Byte.x68; Byte.x74; Byte.x74; Byte.x70; Byte.x73;
    Byte.x02; Byte.x02; Byte.x01; Byte.xbb; Byte.x0c; Byte.x00 ].

(** A SEQUENCE holding the single INTEGER 7. *)
Definition other_version_ber : list byte :=
  [ Byte.x30; Byte.x03; Byte.x02; Byte.x01; Byte.x07 ].

End Test_Doubles.

(** ** Text form, construction and age

    The remaining members of the class: the constructor from the negotiated
    values, the constructor from PEM text, [PEM_encode] and
    [session_age]. *)

(** [PEM_Code::encode(der, label)] and
    [PEM_Code::decode_check_label(pem, label)], a collaborator like the ones
    above. *)
Class PEM_Code : Type :=
  { PEM_Code_encode : list byte -> string -> string;
    PEM_Code_decode_check_label : string -> string -> result (list byte) }.

Section Session_Lifecycle.

Context {x509 : X509_Codec} {platform : Platform} {pem : PEM_Code}.

(** [Session::Session(session_identifier, master_secret, version, ...)];
    [now] is what [std::chrono::system_clock::now()] returns, in ticks. *)
Definition Session_new (now : Z)
    (session_identifier master_secret : list byte)
    (version : Protocol_Version) (ciphersuite compression_method : Z)
    (side : Connection_Side) (fragment_size : Z)
    (certs : list X509_Certificate) (ticket : list byte)
    (server_info : Server_Information) (srp_identifier : string)
  : Session :=
  {| m_start_time := now;
     m_identifier := session_identifier;
     m_session_ticket := ticket;
     m_master_secret := master_secret;
     m_version := version;
     m_ciphersuite := ciphersuite;
     m_compression_method := compression_method;
     m_connection_side := side;
     m_fragment_size := fragment_size;
     m_peer_certs := certs;
     m_server_info := server_info;
     m_srp_identifier := srp_identifier |}.

(** [Session::Session(const std::string& pem)] *)
Definition Session_from_pem (pem_text : string) : outcome Session :=
  match PEM_Code_decode_check_label pem_text "SSL SESSION" with
  | Raises e => Throw e
  | Returns der => Session_from_ber der
  end.

(** [Session::PEM_encode] *)
Definition PEM_encode (s : Session) : string :=
  PEM_Code_encode (DER_encode s) "SSL SESSION".

(** [Session::session_age]: [duration_cast<seconds>(now - m_start_time)],
    which truncates toward zero; [now] is the clock reading in ticks. *)
Definition session_age (s : Session) (now : Z) : Z :=
  Z.quot (now - m_start_time s) system_clock_ticks_per_second.

(** The PEM codec gives back the bytes it wrapped when asked for the label
    it wrote. *)
Definition PEM_code_ok : Prop :=
  forall (der : list byte) (label : string),
    PEM_Code_decode_check_label (PEM_Code_encode der label) label
    = Returns der.

(** A certificate that parses occupies at least one byte. *)
Definition X509_decode_consumes : Prop :=
  forall (src : list byte) (c : X509_Certificate) (consumed : nat),
    X509_decode src = Returns (c, consumed) -> (1 <= consumed)%nat.

End Session_Lifecycle.

(** ** More test doubles *)
Module Test_Doubles_Text.
Import Test_Doubles.

(** [s] without the leading [p], when it starts with [p]. *)
Fixpoint strip_prefix (p s : string) : option string :=
  match p with
  | EmptyString => Some s
  | String a p' =>
      match s with
      | String b s' => if Ascii.eqb a b then strip_prefix p' s' else None
      | EmptyString => None
      end
  end.

(** The label, a colon, then the bytes as characters. *)
#[export] Instance test_pem : PEM_Code :=
  {| PEM_Code_encode := fun der label =>
       String.append label (String ":" (string_of_list_byte der));
     PEM_Code_decode_check_label := fun pem_text label =>
       match strip_prefix (String.append label ":") pem_text with
       | Some body => Returns (list_byte_of_string body)
       | None => Raises (mk_exception Decoding_Error "PEM: label mismatch")
       end |}.

(** A record with every optional field empty, created at the epoch. *)
Definition bare_session : Session :=
  {| m_start_time := 0;
     m_identifier := [];
     m_session_ticket := [];
     m_master_secret := [];
     m_version := mk_Protocol_Version 3 0;
     m_ciphersuite := 0;
     m_compression_method := 0;
     m_connection_side := Connection_Side_of_code 1;
     m_fragment_size := 0;
     m_peer_certs := [];
     m_server_info := mk_Server_Information "" "" 0;
     m_srp_identifier := "" |}.

(** A second blob, of the session with a chain, from another generator
    state. *)
Definition example_blob_with_chain : list byte :=
  fst (encrypt example_session_with_chain example_key 1).

(** A clock reading 2.9 seconds after the example session was created. *)
Definition example_now : Z := 1332000003023456789.

(** An encoded session whose certificate field holds the certificate
    [30 01 41] followed by the stray byte [FF]. *)
Definition broken_chain_ber : list byte :=
  [ Byte.x30; Byte.x37; Byte.x02; Byte.x04; Byte.x29; Byte.x94;
    Byte.xe3; Byte.x01; Byte.x02; Byte.x01; Byte.x00; Byte.x02;
    Byte.x01; Byte.x03; Byte.x02; Byte.x01; Byte.x03; Byte.x04;
    Byte.x02; Byte.x01; Byte.x02; Byte.x04; Byte.x00; Byte.x02;
    Byte.x01; Byte.x2f; Byte.x02; Byte.x01; Byte.x00; Byte.x02;
    Byte.x01; Byte.x01; Byte.x02; Byte.x01; Byte.x00; Byte.x04;
    Byte.x04; Byte.xde; Byte.xad; Byte.xbe; Byte.xef; Byte.x04;
    Byte.x04; Byte.x30; Byte.x01; Byte.x41; Byte.xff; Byte.x0c;
    Byte.x00; Byte.x0c; Byte.x00; Byte.x02; Byte.x02; Byte.x01;
    Byte.xbb; Byte.x0c; Byte.x00 ].

End Test_Doubles_Text.

(* ================================================================== *)
(** * Properties *)

(** ** Bytes and big-endian integers *)

Lemma Z_of_byte_range (b : byte) : 0 <= Z_of_byte b < 256.
Proof.
  unfold Z_of_byte. pose proof (Byte.to_N_bounded b). lia.
Qed.

Lemma Z_of_byte_of_Z (z : Z) : Z_of_byte (byte_of_Z z) = z mod 256.
Proof.
  unfold Z_of_byte, byte_of_Z.
  assert (Hr : 0 <= z mod 256 < 256) by (apply Z.mod_pos_bound; lia).
  destruct (Byte.of_N (Z.to_N (z mod 256))) as [b|] eqn:E.
  - apply Byte.to_of_N in E. rewrite E. lia.
  - apply Byte.of_N_None_iff in E. lia.
Qed.

Lemma byte_of_Z_of_byte (b : byte) : byte_of_Z (Z_of_byte b) = b.
Proof.
  unfold byte_of_Z. pose proof (Z_of_byte_range b) as Hr.
  rewrite Z.mod_small by lia. unfold Z_of_byte.
  rewrite N2Z.id, Byte.of_to_N. reflexivity.
Qed.

Lemma Z_of_byte_inj (a b : byte) : Z_of_byte a = Z_of_byte b -> a = b.
Proof.
  intros H. rewrite <- (byte_of_Z_of_byte a), <- (byte_of_Z_of_byte b).
  now rewrite H.
Qed.

Lemma byte_of_Z_small (z : Z) : 0 <= z < 256 -> Z_of_byte (byte_of_Z z) = z.
Proof.
  intros H. rewrite Z_of_byte_of_Z. apply Z.mod_small. lia.
Qed.

Lemma small_testbit_high (b n : Z) :
  0 <= b < 2 ^ 8 -> 8 <= n -> Z.testbit b n = false.
Proof.
  intros Hb Hn. destruct (Z.eq_dec b 0) as [->|Hnz].
  - apply Z.bits_0.
  - apply Z.bits_above_log2; [lia|].
    assert (Z.log2 b < 8) by (apply Z.log2_lt_pow2; lia). lia.
Qed.

Lemma lor_shiftl_byte (acc b : Z) :
  0 <= b < 256 -> Z.lor (Z.shiftl acc 8) b = acc * 256 + b.
Proof.
  intros Hb. rewrite Z.shiftl_mul_pow2 by lia.
  change (2 ^ 8) with 256.
  rewrite <- (Z.add_lor_land (acc * 256) b).
  assert (Hz : Z.land (acc * 256) b = 0).
  { apply Z.bits_inj'. intros n Hn. rewrite Z.land_spec, Z.bits_0.
    destruct (Z.ltb_spec n 8).
    - change 256 with (2 ^ 8). rewrite Z.mul_pow2_bits_low by lia.
      reflexivity.
    - rewrite (small_testbit_high b n) by (change (2 ^ 8) with 256; lia).
      apply andb_false_r. }
  rewrite Hz. lia.
Qed.

Lemma be_value_cons (acc : Z) (b : byte) (bs : list byte) :
  be_value acc (b :: bs) = be_value (acc * 256 + Z_of_byte b) bs.
Proof.
  cbn [be_value]. rewrite lor_shiftl_byte by apply Z_of_byte_range.
  reflexivity.
Qed.

Lemma be_value_acc (bs : list byte) : forall acc,
  be_value acc bs = acc * 256 ^ Z.of_nat (length bs) + be_value 0 bs.
Proof.
  induction bs as [|b bs IH]; intros acc.
  - simpl. lia.
  - rewrite !be_value_cons, IH, (IH (0 * 256 + Z_of_byte b)).
    change (length (b :: bs)) with (S (length bs)).
    rewrite Nat2Z.inj_succ, Z.pow_succ_r by lia. ring.
Qed.

Lemma be_value_range (bs : list byte) :
  0 <= be_value 0 bs < 256 ^ Z.of_nat (length bs).
Proof.
  induction bs as [|b bs IH].
  - simpl. lia.
  - rewrite be_value_cons, be_value_acc.
    change (length (b :: bs)) with (S (length bs)).
    rewrite Nat2Z.inj_succ, Z.pow_succ_r by lia.
    pose proof (Z_of_byte_range b).
    assert (0 < 256 ^ Z.of_nat (length bs)) by (apply Z.pow_pos_nonneg; lia).
    nia.
Qed.

Lemma be_value_zero_cons (bs : list byte) :
  be_value 0 (Byte.x00 :: bs) = be_value 0 bs.
Proof. reflexivity. Qed.

Lemma be_bytes_length (n : nat) (z : Z) : length (be_bytes n z) = n.
Proof. induction n; simpl; congruence. Qed.

Lemma be_value_be_bytes (n : nat) (z : Z) : forall acc,
  be_value acc (be_bytes n z) = acc * 256 ^ Z.of_nat n + z mod 256 ^ Z.of_nat n.
Proof.
  induction n as [|k IH]; intros acc.
  - simpl. rewrite Z.mod_1_r. lia.
  - cbn [be_bytes]. rewrite be_value_cons, IH, Z_of_byte_of_Z.
    rewrite Z.shiftr_div_pow2 by lia.
    rewrite Nat2Z.inj_succ, Z.pow_succ_r by lia.
    rewrite Z.pow_mul_r by lia. change (2 ^ 8) with 256.
    assert (Hp : 0 < 256 ^ Z.of_nat k) by (apply Z.pow_pos_nonneg; lia).
    replace (256 * 256 ^ Z.of_nat k) with (256 ^ Z.of_nat k * 256) by ring.
    rewrite (Z.rem_mul_r z (256 ^ Z.of_nat k) 256) by lia.
    ring.
Qed.

Lemma be_value_be_bytes_small (n : nat) (z : Z) :
  0 <= z < 256 ^ Z.of_nat n -> be_value 0 (be_bytes n z) = z.
Proof.
  intros H. rewrite be_value_be_bytes, Z.mod_small by lia. lia.
Qed.

Lemma be_value_inj (a : list byte) : forall b,
  length a = length b -> be_value 0 a = be_value 0 b -> a = b.
Proof.
  induction a as [|x a IH]; intros [|y b] Hlen Hval; cbn in Hlen;
    try discriminate; [reflexivity|].
  rewrite !be_value_cons, (be_value_acc a), (be_value_acc b) in Hval.
  assert (Hl : length a = length b) by congruence. rewrite <- Hl in Hval.
  pose proof (be_value_range a) as Ha. pose proof (be_value_range b) as Hb.
  rewrite <- Hl in Hb.
  destruct (Z.div_mod_unique (256 ^ Z.of_nat (length a))
              (Z_of_byte x) (Z_of_byte y) (be_value 0 a) (be_value 0 b))
    as [Hq Hr]; [lia|lia|lia|].
  apply Z_of_byte_inj in Hq. subst. f_equal. now apply IH.
Qed.

Lemma load_store_be32 (v : Z) :
  0 <= v < 2 ^ 32 -> load_be32 (store_be32 v) = v.
Proof.
  intros H. unfold load_be32, store_be32.
  apply be_value_be_bytes_small. change (256 ^ Z.of_nat 4) with (2 ^ 32). lia.
Qed.

(** ** The tagged, length-prefixed encoding and its reader *)

Lemma land_0x80_byte (b : byte) :
  (Z.land (Z_of_byte b) 0x80 =? 0) = (Z_of_byte b <? 128).
Proof. destruct b; reflexivity. Qed.

Lemma land_0x7F_byte (b : byte) :
  Z.land (Z_of_byte b) 0x7F = Z_of_byte b mod 128.
Proof. destruct b; reflexivity. Qed.

Lemma bits_pos (n m : Z) : 0 < n < 2 ^ m -> 1 <= DER.bits n <= m.
Proof.
  intros [Hn Hm]. unfold DER.bits.
  destruct (Z.leb_spec n 0); [lia|].
  pose proof (Z.log2_nonneg n).
  assert (Z.log2 n < m) by (apply Z.log2_lt_pow2; lia). lia.
Qed.

Lemma bits_spec (n : Z) : 0 < n -> 2 ^ (DER.bits n - 1) <= n < 2 ^ DER.bits n.
Proof.
  intros Hn. unfold DER.bits. destruct (Z.leb_spec n 0); [lia|].
  replace (Z.log2 n + 1 - 1) with (Z.log2 n) by lia.
  pose proof (Z.log2_spec n Hn). lia.
Qed.

Lemma bytes_range (n m : Z) :
  0 < n < 2 ^ (8 * m) -> (1 <= DER.bytes n)%nat /\ Z.of_nat (DER.bytes n) <= m.
Proof.
  intros Hn. unfold DER.bytes.
  assert (0 <= m).
  { destruct (Z.ltb_spec m 0); [|lia].
    rewrite Z.pow_neg_r in Hn by lia. lia. }
  pose proof (bits_pos n (8 * m) Hn) as Hb.
  assert (1 <= (DER.bits n + 7) / 8 < m + 1).
  { split.
    - apply Z.div_le_lower_bound; lia.
    - apply Z.div_lt_upper_bound; lia. }
  lia.
Qed.

Lemma bytes_bound (n : Z) : 0 < n -> n < 256 ^ Z.of_nat (DER.bytes n).
Proof.
  intros Hn. pose proof (bits_spec n Hn) as [_ Hlt].
  assert (Hb : 1 <= DER.bits n) by (apply (bits_pos n (DER.bits n)); lia).
  unfold DER.bytes. rewrite Z2Nat.id by (apply Z.div_pos; lia).
  change 256 with (2 ^ 8). rewrite <- Z.pow_mul_r.
  - eapply Z.lt_le_trans; [exact Hlt|].
    apply Z.pow_le_mono_r; [lia|].
    pose proof (Z.div_mod (DER.bits n + 7) 8 ltac:(lia)).
    pose proof (Z.mod_pos_bound (DER.bits n + 7) 8 ltac:(lia)). lia.
  - lia.
  - apply Z.div_pos; lia.
Qed.

Lemma decode_length_encode_length (len : nat) (rest : list byte) :
  Z.of_nat len < 2 ^ 32 ->
  BER.decode_length (DER.encode_length len ++ rest) = Returns (len, rest).
Proof.
  intros Hlen. unfold DER.encode_length.
  destruct (Z.leb_spec (Z.of_nat len) 127) as [Hs|Hl].
  - cbn [app BER.decode_length].
    rewrite land_0x80_byte, byte_of_Z_small by lia.
    replace (Z.of_nat len <? 128) with true by (symmetry; apply Z.ltb_lt; lia).
    rewrite Nat2Z.id. reflexivity.
  - destruct (bytes_range (Z.of_nat len) 4) as [Hk1 Hk4];
      [change (2 ^ (8 * 4)) with (2 ^ 32); lia|].
    pose proof (bytes_bound (Z.of_nat len) ltac:(lia)) as Hbound.
    set (k := DER.bytes (Z.of_nat len)) in *.
    assert (Hfirst : Z_of_byte (byte_of_Z (Z.lor 0x80 (Z.of_nat k)))
                     = 128 + Z.of_nat k).
    { assert (Hk : k = 1%nat \/ k = 2%nat \/ k = 3%nat \/ k = 4%nat) by lia.
      destruct Hk as [->|[->|[->| ->]]]; reflexivity. }
    cbn [app BER.decode_length].
    rewrite land_0x80_byte, land_0x7F_byte, Hfirst.
    replace (128 + Z.of_nat k <? 128) with false
      by (symmetry; apply Z.ltb_ge; lia).
    replace ((128 + Z.of_nat k) mod 128) with (Z.of_nat k).
    2:{ rewrite Z.add_comm, <- (Z.mul_1_l 128) at 1.
        rewrite Z.mod_add by lia. rewrite Z.mod_small; lia. }
    rewrite Nat2Z.id.
    replace (k =? 0)%nat with false by (symmetry; apply Nat.eqb_neq; lia).
    replace (4 <? k)%nat with false by (symmetry; apply Nat.ltb_ge; lia).
    replace (length (be_bytes k (Z.of_nat len) ++ rest) <? k)%nat with false.
    2:{ symmetry. apply Nat.ltb_ge. rewrite length_app, be_bytes_length. lia. }
    rewrite firstn_app, skipn_app, be_bytes_length, Nat.sub_diag.
    rewrite firstn_all2 by (rewrite be_bytes_length; lia).
    rewrite skipn_all2 by (rewrite be_bytes_length; lia).
    cbn [firstn skipn app]. rewrite app_nil_r.
    rewrite be_value_be_bytes_small by lia.
    rewrite Nat2Z.id. reflexivity.
Qed.

Lemma get_next_object_add_object (tag : Z) (contents rest : list byte) :
  0 <= tag < 256 ->
  Z.of_nat (length contents) < 2 ^ 32 ->
  BER.get_next_object (DER.add_object tag contents ++ rest)
  = Returns (BER.mk_BER_Object tag contents, rest).
Proof.
  intros Ht Hlen. unfold DER.add_object.
  cbn [app BER.get_next_object]. rewrite <- app_assoc.
  rewrite decode_length_encode_length by assumption.
  replace (length (contents ++ rest) <? length contents)%nat with false.
  2:{ symmetry. apply Nat.ltb_ge. rewrite length_app. lia. }
  rewrite firstn_app, skipn_app, Nat.sub_diag, firstn_all, skipn_all.
  cbn [firstn skipn app]. rewrite app_nil_r, byte_of_Z_small by lia.
  reflexivity.
Qed.

Lemma add_object_length (tag : Z) (contents : list byte) :
  (2 + length contents <= length (DER.add_object tag contents))%nat.
Proof.
  unfold DER.add_object, DER.encode_length. cbn [length].
  rewrite length_app.
  destruct (Z.of_nat (length contents) <=? 127); cbn [length]; lia.
Qed.

Lemma assert_is_a_same (tag : Z) (contents : list byte) :
  BER.assert_is_a (BER.mk_BER_Object tag contents) tag = Returns tt.
Proof. unfold BER.assert_is_a. cbn. rewrite Z.eqb_refl. reflexivity. Qed.

Ltac tag_range :=
  unfold DER.INTEGER, DER.OCTET_STRING, DER.UTF8_STRING, DER.SEQUENCE;
  cbn [length]; lia.

Lemma be_bytes_top_byte (n : Z) :
  0 < n -> DER.bits n mod 8 <> 0 ->
  exists b bs, be_bytes (DER.bytes n) n = b :: bs /\ Z_of_byte b < 128.
Proof.
  intros Hn Hmod.
  pose proof (bits_spec n Hn) as [_ Hlt].
  assert (Hb : 1 <= DER.bits n) by (apply (bits_pos n (DER.bits n)); lia).
  pose proof (Z.div_mod (DER.bits n) 8 ltac:(lia)) as Hdm.
  pose proof (Z.mod_pos_bound (DER.bits n) 8 ltac:(lia)) as Hr.
  set (q := DER.bits n / 8) in *. set (r := DER.bits n mod 8) in *.
  assert (Hq : 0 <= q) by (apply Z.div_pos; lia).
  assert (Hk : DER.bytes n = S (Z.to_nat q)).
  { unfold DER.bytes. replace (DER.bits n + 7) with ((r + 7) + q * 8) by lia.
    rewrite Z.div_add by lia.
    replace ((r + 7) / 8) with 1; [lia|].
    apply Z.div_unique with (r := r - 1); lia. }
  rewrite Hk. cbn [be_bytes]. eexists. eexists. split; [reflexivity|].
  rewrite Z_of_byte_of_Z, Z2Nat.id, Z.shiftr_div_pow2 by lia.
  assert (Hdiv : 0 <= n / 2 ^ (8 * q) < 128).
  { assert (0 < 2 ^ (8 * q)) by (apply Z.pow_pos_nonneg; lia).
    split; [apply Z.div_pos; lia|].
    apply Z.div_lt_upper_bound; [lia|].
    eapply Z.lt_le_trans; [exact Hlt|].
    change 128 with (2 ^ 7). rewrite <- Z.pow_add_r by lia.
    apply Z.pow_le_mono_r; lia. }
  rewrite Z.mod_small; lia.
Qed.

Lemma decode_constrained_integer_encode (T_bytes n : Z) (rest : list byte) :
  1 <= T_bytes <= 8 ->
  0 <= n < 2 ^ (8 * T_bytes) ->
  BER.decode_constrained_integer T_bytes (DER.encode_size_t n ++ rest)
  = Returns (n, rest).
Proof.
  intros HT Hn. unfold BER.decode_constrained_integer, DER.encode_size_t.
  destruct (Z.eqb_spec n 0) as [->|Hnz].
  - rewrite get_next_object_add_object by tag_range.
    rewrite assert_is_a_same. cbn [BER.value].
    change (Z.land (Z_of_byte Byte.x00) 128 =? 0) with true. cbv iota.
    change (be_value 0 [Byte.x00]) with 0. change (DER.bits 0) with 0.
    replace (8 * T_bytes <? 0) with false by (symmetry; apply Z.ltb_ge; lia).
    reflexivity.
  - assert (Hpos : 0 < n) by lia.
    destruct (bytes_range n T_bytes ltac:(lia)) as [Hk1 Hk2].
    pose proof (bytes_bound n Hpos) as Hbound.
    pose proof (bits_pos n (8 * T_bytes) ltac:(lia)) as Hbits.
    rewrite get_next_object_add_object.
    2:{ tag_range. }
    2:{ rewrite length_app, be_bytes_length.
        destruct (DER.bits n mod 8 =? 0); cbn [length]; lia. }
    rewrite assert_is_a_same. cbn [BER.value].
    destruct (Z.eqb_spec (DER.bits n mod 8) 0) as [He|Hne].
    + cbn [app]. change (Z.land (Z_of_byte Byte.x00) 128 =? 0) with true.
      cbv iota. rewrite be_value_zero_cons, be_value_be_bytes_small by lia.
      replace (8 * T_bytes <? DER.bits n) with false
        by (symmetry; apply Z.ltb_ge; lia).
      reflexivity.
    + destruct (be_bytes_top_byte n Hpos Hne) as (b & bs & Hbs & Hb).
      cbn [app]. pose proof (be_value_be_bytes_small (DER.bytes n) n
                               ltac:(lia)) as Hval.
      rewrite Hbs in *. rewrite land_0x80_byte.
      replace (Z_of_byte b <? 128) with true by (symmetry; apply Z.ltb_lt; lia).
      rewrite Hval.
      replace (8 * T_bytes <? DER.bits n) with false
        by (symmetry; apply Z.ltb_ge; lia).
      reflexivity.
Qed.

Lemma decode_octets_encode (bs rest : list byte) :
  Z.of_nat (length bs) < 2 ^ 32 ->
  BER.decode_octets (DER.encode_octets bs ++ rest) = Returns (bs, rest).
Proof.
  intros H. unfold BER.decode_octets, DER.encode_octets.
  rewrite get_next_object_add_object by tag_range.
  rewrite assert_is_a_same. reflexivity.
Qed.

Lemma decode_string_encode (s : string) (rest : list byte) :
  Z.of_nat (length (list_byte_of_string s)) < 2 ^ 32 ->
  BER.decode_string (DER.encode_string s ++ rest) = Returns (s, rest).
Proof.
  intros H. unfold BER.decode_string, DER.encode_string.
  rewrite get_next_object_add_object by tag_range.
  rewrite assert_is_a_same. cbn [BER.value].
  rewrite string_of_list_byte_of_string. reflexivity.
Qed.

Lemma start_cons_encode_sequence (fields rest : list byte) :
  Z.of_nat (length fields) < 2 ^ 32 ->
  BER.start_cons DER.SEQUENCE (DER.encode_sequence fields ++ rest)
  = Returns (fields, rest).
Proof.
  intros H. unfold BER.start_cons, DER.encode_sequence.
  rewrite get_next_object_add_object by tag_range.
  rewrite assert_is_a_same. reflexivity.
Qed.

Lemma decode_and_check_encode (expected : Z) (msg : string) (rest : list byte) :
  0 <= expected < 2 ^ 64 ->
  BER.decode_and_check expected msg (DER.encode_size_t expected ++ rest)
  = Returns (tt, rest).
Proof.
  intros H. unfold BER.decode_and_check, BER.decode_size_t.
  rewrite decode_constrained_integer_encode
    by (unfold sizeof_size_t; change (2 ^ (8 * 8)) with (2 ^ 64); lia).
  rewrite Z.eqb_refl. reflexivity.
Qed.

(** ** Integer conversions *)

Lemma static_cast_size_t_id (z : Z) :
  0 <= z < 2 ^ 64 -> static_cast_size_t z = z.
Proof.
  intros H. unfold static_cast_size_t, sizeof_size_t.
  change (2 ^ (8 * 8)) with (2 ^ 64). apply Z.mod_small. lia.
Qed.

Lemma static_cast_size_t_range (z : Z) : 0 <= static_cast_size_t z < 2 ^ 64.
Proof.
  unfold static_cast_size_t, sizeof_size_t. change (2 ^ (8 * 8)) with (2 ^ 64).
  apply Z.mod_pos_bound. lia.
Qed.

Lemma static_cast_time_t_size_t (t : Z) :
  - 2 ^ 63 <= t < 2 ^ 63 ->
  static_cast_time_t (static_cast_size_t t) = t.
Proof.
  intros H. unfold static_cast_time_t, static_cast_size_t, sizeof_size_t.
  change (2 ^ (8 * 8)) with (2 ^ 64). rewrite Z.mod_mod by lia.
  destruct (Z.ltb_spec t 0).
  - replace (t mod 2 ^ 64) with (t + 2 ^ 64).
    + destruct (Z.ltb_spec (t + 2 ^ 64) (2 ^ 63)); lia.
    + apply Z.mod_unique with (q := -1); lia.
  - rewrite Z.mod_small by lia.
    destruct (Z.ltb_spec t (2 ^ 63)); lia.
Qed.

(** ** The canonical codec *)

Section Codec_Properties.

Context {x509 : X509_Codec} {kdf : KDF} {mac : MessageAuthenticationCode}
        {cipher : Cipher} {rng : RandomNumberGenerator}
        {platform : Platform}.

Lemma to_time_t_from_time_t (s : Z) :
  clock_ok -> to_time_t (from_time_t s) = s.
Proof.
  unfold clock_ok, to_time_t, from_time_t. intros H.
  apply Z.quot_mul. lia.
Qed.

Lemma encode_peer_certs_acc (certs : list X509_Certificate) :
  forall bits,
    fold_left (fun bits c => bits ++ X509_BER_encode c) certs bits
    = bits ++ concat (map X509_BER_encode certs).
Proof.
  induction certs as [|c cs IH]; intros bits; cbn [fold_left map concat].
  - now rewrite app_nil_r.
  - rewrite IH, <- app_assoc. reflexivity.
Qed.

Lemma encode_peer_certs_concat (certs : list X509_Certificate) :
  encode_peer_certs certs = concat (map X509_BER_encode certs).
Proof. unfold encode_peer_certs. now rewrite encode_peer_certs_acc. Qed.

Lemma read_certs_step (fuel : nat) (certs : list byte)
    (peer_certs : list X509_Certificate) :
  certs <> [] ->
  read_certs (S fuel) certs peer_certs
  = match X509_decode certs with
    | Raises e => Throw e
    | Returns (c, consumed) =>
        read_certs fuel (skipn consumed certs) (peer_certs ++ [c])
    end.
Proof. destruct certs; [congruence|reflexivity]. Qed.

(** The loop re-splits a concatenation of encoded certificates into the
    certificates, in order, whenever the budget covers its length. *)
Lemma read_certs_concat (certs : list X509_Certificate) :
  X509_codec_ok ->
  forall fuel peer_certs,
    (length (concat (map X509_BER_encode certs)) <= fuel)%nat ->
    read_certs fuel (concat (map X509_BER_encode certs)) peer_certs
    = Ok (peer_certs ++ certs).
Proof.
  intros Hx. induction certs as [|c cs IH]; intros fuel acc Hfuel.
  - cbn [map concat]. destruct fuel; cbn; now rewrite app_nil_r.
  - cbn [map concat] in *.
    destruct (Hx c (concat (map X509_BER_encode cs))) as [Hdec Hne].
    rewrite length_app in Hfuel.
    assert (Hpos : (1 <= length (X509_BER_encode c))%nat).
    { destruct (X509_BER_encode c); [congruence|cbn; lia]. }
    destruct fuel as [|fuel]; [lia|].
    rewrite read_certs_step.
    + rewrite Hdec, skipn_app, Nat.sub_diag, skipn_all.
      cbn [skipn app]. rewrite IH by lia. now rewrite <- app_assoc.
    + intros Hnil. apply app_eq_nil in Hnil. tauto.
Qed.

Lemma encode_octets_length (bs : list byte) :
  (length bs <= length (DER.encode_octets bs))%nat.
Proof.
  unfold DER.encode_octets.
  pose proof (add_object_length DER.OCTET_STRING bs). lia.
Qed.

Lemma encode_string_length (s : string) :
  (length (list_byte_of_string s) <= length (DER.encode_string s))%nat.
Proof.
  unfold DER.encode_string.
  pose proof (add_object_length DER.UTF8_STRING (list_byte_of_string s)).
  lia.
Qed.

(** Decoding the encoded fields gives the record back, the certificate
    chain still encoded. *)
Lemma decode_fields_DER_encode (s : Session) :
  clock_ok -> fields_in_range s ->
  decode_fields (DER_encode s)
  = Returns
      ({| m_start_time := from_time_t (to_time_t (m_start_time s));
          m_identifier := m_identifier s;
          m_session_ticket := m_session_ticket s;
          m_master_secret := m_master_secret s;
          m_version := m_version s;
          m_ciphersuite := m_ciphersuite s;
          m_compression_method := m_compression_method s;
          m_connection_side := m_connection_side s;
          m_fragment_size := m_fragment_size s;
          m_peer_certs := [];
          m_server_info := m_server_info s;
          m_srp_identifier := m_srp_identifier s |},
       encode_peer_certs (m_peer_certs s)).
Proof.
  intros Hclock (Ht & Hmaj & Hmin & Hcs & Hcm & Hside & Hfs & Hport & Hlen).
  unfold decode_fields, DER_encode.
  rewrite <- (app_nil_r (DER.encode_sequence (DER_fields s))).
  rewrite start_cons_encode_sequence by assumption.
  assert (Hl := Hlen). unfold DER_fields in Hl. rewrite !length_app in Hl.
  pose proof (encode_octets_length (m_identifier s)).
  pose proof (encode_octets_length (m_session_ticket s)).
  pose proof (encode_octets_length (m_master_secret s)).
  pose proof (encode_octets_length (encode_peer_certs (m_peer_certs s))).
  pose proof (encode_string_length (hostname (m_server_info s))).
  pose proof (encode_string_length (service (m_server_info s))).
  pose proof (encode_string_length (m_srp_identifier s)).
  unfold DER_fields.
  rewrite <- (app_nil_r (DER.encode_string (m_srp_identifier s))).
  rewrite decode_and_check_encode by apply static_cast_size_t_range.
  rewrite decode_constrained_integer_encode
    by (try apply static_cast_size_t_range; unfold sizeof_size_t; lia).
  rewrite !static_cast_size_t_id by lia.
  unfold BER.decode_size_t.
  repeat first
    [ rewrite decode_constrained_integer_encode
        by (unfold sizeof_size_t, sizeof_u16bit, sizeof_byte;
            cbn [Z.mul Pos.mul]; lia)
    | rewrite decode_octets_encode by lia
    | rewrite decode_string_encode by lia ].
  cbn [BER.end_cons BER.verify_end].
  rewrite static_cast_time_t_size_t by lia.
  destruct s as [st id tk ms [maj mn] cs cm [sd] fs pc [h sv pt] srp].
  reflexivity.
Qed.

(** Decoding an encoded record reproduces it, the creation time at whole
    seconds. *)
Lemma Session_from_ber_DER_encode (s : Session) :
  X509_codec_ok -> clock_ok -> fields_in_range s ->
  Session_from_ber (DER_encode s) = Ok (at_seconds_resolution s).
Proof.
  intros Hx Hclock Hrange. unfold Session_from_ber.
  rewrite decode_fields_DER_encode by assumption.
  rewrite encode_peer_certs_concat.
  destruct (concat (map X509_BER_encode (m_peer_certs s)))
    as [|b bits] eqn:Ebits.
  - destruct (m_peer_certs s) as [|c cs] eqn:Ecerts.
    + unfold at_seconds_resolution. rewrite Ecerts. reflexivity.
    + exfalso. cbn [map concat] in Ebits.
      destruct (Hx c []) as [_ Hne].
      destruct (X509_BER_encode c); [congruence|discriminate].
  - rewrite <- Ebits. rewrite read_certs_concat by (assumption || lia).
    reflexivity.
Qed.

Lemma at_seconds_resolution_same_fields (s : Session) :
  clock_ok -> same_fields s (at_seconds_resolution s).
Proof.
  intros Hclock. unfold same_fields, at_seconds_resolution.
  cbn. rewrite to_time_t_from_time_t by assumption.
  repeat split.
Qed.

Lemma at_seconds_resolution_whole (s : Session) :
  whole_seconds s -> at_seconds_resolution s = s.
Proof.
  unfold whole_seconds, at_seconds_resolution. intros H.
  destruct s. cbn in *. now rewrite <- H.
Qed.

End Codec_Properties.

(** ** The traced computations *)

Lemma bind_ret {A B} (a : A) (k : A -> traced B) : bind (ret a) k = k a.
Proof. unfold bind, ret. destruct (k a). reflexivity. Qed.

Lemma bind_record_call {A B} (c : call) (a : A) (k : A -> traced B) :
  bind (record_call c a) k = (c :: calls_of (k a), outcome_of (k a)).
Proof. unfold bind, record_call. destruct (k a). reflexivity. Qed.

Lemma read_in_bounds (buf : list byte) (off n : Z) :
  0 <= off -> 0 <= n -> off + n <= Z.of_nat (length buf) ->
  read buf off n = ret (firstn (Z.to_nat n) (skipn (Z.to_nat off) buf)).
Proof.
  intros Ho Hn Hb. unfold read.
  replace (0 <=? off) with true by (symmetry; apply Z.leb_le; lia).
  replace (0 <=? n) with true by (symmetry; apply Z.leb_le; lia).
  replace (off + n <=? Z.of_nat (length buf)) with true
    by (symmetry; apply Z.leb_le; lia).
  reflexivity.
Qed.

Lemma read_slice (buf : list byte) (off n : nat) :
  (off + n <= length buf)%nat ->
  read buf (Z.of_nat off) (Z.of_nat n) = ret (firstn n (skipn off buf)).
Proof.
  intros H. rewrite read_in_bounds by lia. now rewrite !Nat2Z.id.
Qed.

Lemma size_t_sub_no_wrap (a b : Z) : b <= a -> size_t_sub a b = a - b.
Proof.
  intros H. unfold size_t_sub. destruct (Z.ltb_spec a b); lia.
Qed.

(** ** Constant-time comparison *)

Lemma same_mem_difference_zero (p1 : list byte) : forall p2 d,
  length p1 = length p2 ->
  same_mem_difference d p1 p2 = 0 <-> d = 0 /\ p1 = p2.
Proof.
  induction p1 as [|a p1 IH]; intros [|b p2] d Hlen; cbn in Hlen;
    try discriminate.
  - cbn. intuition.
  - cbn [same_mem_difference]. rewrite IH by congruence.
    rewrite Z.lor_eq_0_iff, Z.lxor_eq_0_iff. split.
    + intros [[Hd Hab] Hp]. apply Z_of_byte_inj in Hab. subst. auto.
    + intros [Hd Heq]. inversion Heq. subst. auto.
Qed.

Lemma same_mem_true_iff (p1 p2 : list byte) :
  length p1 = length p2 -> same_mem p1 p2 = true <-> p1 = p2.
Proof.
  intros Hlen. unfold same_mem. rewrite Z.eqb_eq.
  rewrite same_mem_difference_zero by assumption. intuition.
Qed.

Lemma same_mem_refl (p : list byte) : same_mem p p = true.
Proof. now apply same_mem_true_iff. Qed.

(** ** The encrypted envelope *)

Section Envelope_Properties.

Context {x509 : X509_Codec} {kdf : KDF} {mac : MessageAuthenticationCode}
        {cipher : Cipher} {rng : RandomNumberGenerator}
        {platform : Platform}.

Lemma decrypt_body_short (buf master_key : list byte) :
  Z.of_nat (length buf) < 136 ->
  decrypt_body buf master_key = throw too_short.
Proof.
  intros H. unfold decrypt_body.
  change (MAGIC_LENGTH + 2 * KEY_KDF_SALT_LENGTH + CIPHER_IV_LENGTH
          + 4 * 16 + MAC_OUTPUT_LENGTH) with 136.
  replace (Z.of_nat (length buf) <? 136) with true
    by (symmetry; apply Z.ltb_lt; lia).
  reflexivity.
Qed.

Lemma decrypt_body_long (buf master_key : list byte) :
  mac_ok -> 136 <= Z.of_nat (length buf) ->
  decrypt_body buf master_key
  = if negb (load_be32 (firstn 4 buf) =? SESSION_CRYPTO_MAGIC)
    then throw unknown_header
    else if negb (tag_verifies buf master_key)
    then (authentication_calls buf master_key, Throw mac_failed)
    else (authentication_calls buf master_key
            ++ decryption_calls buf master_key,
          match cipher_decrypt (cipher_key_of buf master_key)
                  (blob_cipher_iv buf) (blob_ctext buf) with
          | Returns ber => Session_from_ber ber
          | Raises e => Throw e
          end).
Proof.
  intros Hmac H. unfold decrypt_body.
  change (MAGIC_LENGTH + 2 * KEY_KDF_SALT_LENGTH + CIPHER_IV_LENGTH
          + 4 * 16 + MAC_OUTPUT_LENGTH) with 136.
  replace (Z.of_nat (length buf) <? 136) with false
    by (symmetry; apply Z.ltb_ge; lia).
  unfold MAGIC_LENGTH, KEY_KDF_SALT_LENGTH, CIPHER_IV_LENGTH,
    MAC_OUTPUT_LENGTH.
  change (4 + 10) with 14. change (4 + 2 * 10) with 24.
  change (4 + 2 * 10 + 16) with 40. change (32 + 40) with 72.
  rewrite !size_t_sub_no_wrap by lia.
  assert (Hlen : (136 <= length buf)%nat) by lia.
  change (read buf 0 4) with (read buf (Z.of_nat 0) (Z.of_nat 4)).
  rewrite read_slice by lia. rewrite bind_ret, skipn_O.
  destruct (negb (load_be32 (firstn 4 buf) =? SESSION_CRYPTO_MAGIC));
    [reflexivity|].
  change (read buf 14 10) with (read buf (Z.of_nat 14) (Z.of_nat 10)).
  rewrite read_slice by lia. rewrite bind_ret.
  unfold call_derive_key. rewrite bind_record_call.
  replace (Z.of_nat (length buf) - 32) with (Z.of_nat (length buf - 32))
    by lia.
  change (read buf 0) with (read buf (Z.of_nat 0)).
  rewrite read_slice by lia. rewrite bind_ret, skipn_O.
  unfold call_mac. rewrite bind_record_call.
  match goal with
  | |- context [length (mac_final ?k ?d)] =>
      pose proof (Hmac k d) as Hm; unfold MAC_OUTPUT_LENGTH in Hm;
      rewrite read_slice by lia;
      replace (length (mac_final k d)) with 32%nat by lia
  end.
  rewrite bind_ret.
  fold (blob_mac_key_salt buf). fold (blob_authenticated buf).
  fold (blob_tag buf). fold (mac_key_of buf master_key).
  change (same_mem (blob_tag buf)
            (mac_final (mac_key_of buf master_key) (blob_authenticated buf)))
    with (tag_verifies buf master_key).
  unfold authentication_calls.
  destruct (negb (tag_verifies buf master_key)); [reflexivity|].
  change (24 + 16) with 40. change (32 + 40) with 72.
  change (read buf 4 10) with (read buf (Z.of_nat 4) (Z.of_nat 10)).
  rewrite read_slice by lia. rewrite bind_ret.
  rewrite bind_record_call.
  change (read buf 24 16) with (read buf (Z.of_nat 24) (Z.of_nat 16)).
  rewrite read_slice by lia. rewrite bind_ret.
  replace (Z.of_nat (length buf) - 72) with (Z.of_nat (length buf - 72))
    by lia.
  change (read buf 40) with (read buf (Z.of_nat 40)).
  rewrite read_slice by lia. rewrite bind_ret.
  fold (blob_cipher_key_salt buf). fold (blob_cipher_iv buf).
  fold (blob_ctext buf). fold (cipher_key_of buf master_key).
  unfold decryption_calls, call_cipher_decrypt, bind, lift, calls_of,
    outcome_of.
  destruct (cipher_decrypt (cipher_key_of buf master_key)
              (blob_cipher_iv buf) (blob_ctext buf)); reflexivity.
Qed.

(** What [Session::decrypt] does with each kind of blob. *)
Lemma decrypt_short (buf master_key : list byte) :
  Z.of_nat (length buf) < 136 ->
  decrypt buf master_key
  = throw (mk_exception Decoding_Error
             (String.append "Failed to decrypt encrypted session -"
                            (what too_short))).
Proof.
  intros H. unfold decrypt. rewrite decrypt_body_short by assumption.
  reflexivity.
Qed.

Lemma decrypt_bad_magic (buf master_key : list byte) :
  136 <= Z.of_nat (length buf) ->
  load_be32 (firstn 4 buf) <> SESSION_CRYPTO_MAGIC ->
  decrypt buf master_key
  = throw (mk_exception Decoding_Error
             (String.append "Failed to decrypt encrypted session -"
                            (what unknown_header))).
Proof.
  intros Hlen Hmagic. unfold decrypt, decrypt_body.
  change (MAGIC_LENGTH + 2 * KEY_KDF_SALT_LENGTH + CIPHER_IV_LENGTH
          + 4 * 16 + MAC_OUTPUT_LENGTH) with 136.
  replace (Z.of_nat (length buf) <? 136) with false
    by (symmetry; apply Z.ltb_ge; lia).
  change (read buf 0 4) with (read buf (Z.of_nat 0) (Z.of_nat 4)).
  rewrite read_slice by lia. rewrite bind_ret, skipn_O.
  apply Z.eqb_neq in Hmagic. rewrite Hmagic. reflexivity.
Qed.

Lemma decrypt_bad_mac (buf master_key : list byte) :
  mac_ok -> 136 <= Z.of_nat (length buf) ->
  load_be32 (firstn 4 buf) = SESSION_CRYPTO_MAGIC ->
  tag_verifies buf master_key = false ->
  decrypt buf master_key
  = (authentication_calls buf master_key,
     Throw (mk_exception Decoding_Error
              (String.append "Failed to decrypt encrypted session -"
                             (what mac_failed)))).
Proof.
  intros Hmac Hlen Hmagic Htag. unfold decrypt.
  rewrite decrypt_body_long by assumption.
  apply Z.eqb_eq in Hmagic. rewrite Hmagic, Htag. cbn [negb].
  unfold try_catch, throw. now rewrite app_nil_r.
Qed.

Lemma decrypt_authentic (buf master_key : list byte) :
  mac_ok -> 136 <= Z.of_nat (length buf) ->
  load_be32 (firstn 4 buf) = SESSION_CRYPTO_MAGIC ->
  tag_verifies buf master_key = true ->
  decrypt buf master_key
  = (authentication_calls buf master_key ++ decryption_calls buf master_key,
     match cipher_decrypt (cipher_key_of buf master_key)
             (blob_cipher_iv buf) (blob_ctext buf) with
     | Returns ber =>
         match Session_from_ber ber with
         | Throw e =>
             Throw (mk_exception Decoding_Error
                      (String.append "Failed to decrypt encrypted session -"
                                     (what e)))
         | other => other
         end
     | Raises e =>
         Throw (mk_exception Decoding_Error
                  (String.append "Failed to decrypt encrypted session -"
                                 (what e)))
     end).
Proof.
  intros Hmac Hlen Hmagic Htag. unfold decrypt.
  rewrite decrypt_body_long by assumption.
  apply Z.eqb_eq in Hmagic. rewrite Hmagic, Htag. cbn [negb].
  unfold try_catch, throw.
  destruct (cipher_decrypt (cipher_key_of buf master_key)
              (blob_cipher_iv buf) (blob_ctext buf)) as [ber|e].
  - destruct (Session_from_ber ber); reflexivity.
  - reflexivity.
Qed.

(** A session comes out of [Session::decrypt] only for a blob that is long
    enough, starts with the magic and carries a tag that verifies. *)
Lemma decrypt_returns_only_authentic
    (buf master_key : list byte) (s : Session) :
  mac_ok ->
  outcome_of (decrypt buf master_key) = Ok s ->
  136 <= Z.of_nat (length buf)
  /\ load_be32 (firstn 4 buf) = SESSION_CRYPTO_MAGIC
  /\ tag_verifies buf master_key = true.
Proof.
  intros Hmac Hok.
  destruct (Z.ltb_spec (Z.of_nat (length buf)) 136) as [Hshort|Hlong].
  { rewrite decrypt_short in Hok by assumption. discriminate. }
  destruct (Z.eq_dec (load_be32 (firstn 4 buf)) SESSION_CRYPTO_MAGIC)
    as [Hmagic|Hmagic].
  2:{ rewrite decrypt_bad_magic in Hok by assumption. discriminate. }
  destruct (tag_verifies buf master_key) eqn:Htag; [auto|].
  rewrite decrypt_bad_mac in Hok by assumption. discriminate.
Qed.

Lemma read_certs_in_bounds (fuel : nat) : forall certs peer_certs,
  read_certs fuel certs peer_certs <> OutOfBounds.
Proof.
  induction fuel as [|fuel IH]; intros [|b certs] acc; cbn [read_certs];
    try discriminate.
  destruct (X509_decode (b :: certs)) as [[c consumed]|e];
    [apply IH|discriminate].
Qed.

Lemma Session_from_ber_in_bounds (ber : list byte) :
  Session_from_ber ber <> OutOfBounds.
Proof.
  unfold Session_from_ber.
  destruct (decode_fields ber) as [[s [|b bits]]|e]; try discriminate.
  pose proof (read_certs_in_bounds (length (b :: bits)) (b :: bits)
                (m_peer_certs s)) as H.
  destruct (read_certs (length (b :: bits)) (b :: bits) (m_peer_certs s));
    congruence.
Qed.

End Envelope_Properties.

(** ** Layout of the blob *)

Lemma firstn_app_exact {A} (n : nat) (a b : list A) :
  length a = n -> firstn n (a ++ b) = a.
Proof.
  intros <-. rewrite firstn_app, Nat.sub_diag, firstn_all. cbn.
  apply app_nil_r.
Qed.

Lemma skipn_app_exact {A} (n : nat) (a b : list A) :
  length a = n -> skipn n (a ++ b) = b.
Proof.
  intros <-. rewrite skipn_app, Nat.sub_diag, skipn_all. reflexivity.
Qed.

Section Blob_Layout.

Context {kdf : KDF} {mac : MessageAuthenticationCode}.

Variables header cipher_key_salt mac_key_salt cipher_iv ctext tag : list byte.
Hypothesis header_length : length header = 4%nat.
Hypothesis cipher_key_salt_length : length cipher_key_salt = 10%nat.
Hypothesis mac_key_salt_length : length mac_key_salt = 10%nat.
Hypothesis cipher_iv_length : length cipher_iv = 16%nat.
Hypothesis tag_length : length tag = 32%nat.

Local Abbreviation blob :=
  (header ++ cipher_key_salt ++ mac_key_salt ++ cipher_iv ++ ctext ++ tag).

Lemma blob_length : length blob = (72 + length ctext)%nat.
Proof. rewrite !length_app. lia. Qed.

Lemma blob_header : firstn 4 blob = header.
Proof. now apply firstn_app_exact. Qed.

Lemma blob_cipher_key_salt_eq : blob_cipher_key_salt blob = cipher_key_salt.
Proof.
  unfold blob_cipher_key_salt.
  rewrite skipn_app_exact by assumption. now apply firstn_app_exact.
Qed.

Lemma blob_mac_key_salt_eq : blob_mac_key_salt blob = mac_key_salt.
Proof.
  unfold blob_mac_key_salt. rewrite (app_assoc header).
  rewrite skipn_app_exact by (rewrite length_app; lia).
  now apply firstn_app_exact.
Qed.

Lemma blob_cipher_iv_eq : blob_cipher_iv blob = cipher_iv.
Proof.
  unfold blob_cipher_iv.
  rewrite (app_assoc header), (app_assoc (header ++ cipher_key_salt)).
  rewrite skipn_app_exact by (rewrite !length_app; lia).
  now apply firstn_app_exact.
Qed.

Lemma blob_ctext_eq : blob_ctext blob = ctext.
Proof.
  unfold blob_ctext. rewrite blob_length.
  rewrite (app_assoc header), (app_assoc (header ++ cipher_key_salt)),
    (app_assoc ((header ++ cipher_key_salt) ++ mac_key_salt)).
  rewrite skipn_app_exact by (rewrite !length_app; lia).
  apply firstn_app_exact. lia.
Qed.

Lemma blob_authenticated_eq :
  blob_authenticated blob
  = header ++ cipher_key_salt ++ mac_key_salt ++ cipher_iv ++ ctext.
Proof.
  unfold blob_authenticated. rewrite blob_length.
  rewrite !app_assoc. apply firstn_app_exact. rewrite !length_app. lia.
Qed.

Lemma blob_tag_eq : blob_tag blob = tag.
Proof.
  unfold blob_tag. rewrite blob_length.
  rewrite !app_assoc. rewrite skipn_app_exact by (rewrite !length_app; lia).
  apply firstn_all2. lia.
Qed.

Lemma blob_tag_verifies (master_key : list byte) :
  tag_verifies blob master_key
  = same_mem tag
      (mac_final (derive_key MAC_KEY_LENGTH master_key mac_key_salt)
         (header ++ cipher_key_salt ++ mac_key_salt ++ cipher_iv ++ ctext)).
Proof.
  unfold tag_verifies.
  now rewrite blob_tag_eq, blob_mac_key_salt_eq, blob_authenticated_eq.
Qed.

End Blob_Layout.

(** ** The specified properties *)

Section Specified_Properties.

Context {x509 : X509_Codec} {kdf : KDF} {mac : MessageAuthenticationCode}
        {cipher : Cipher} {rng : RandomNumberGenerator}
        {platform : Platform}.

Lemma encode_size_t_length (n : Z) :
  (2 <= length (DER.encode_size_t n))%nat.
Proof.
  unfold DER.encode_size_t.
  destruct (n =? 0);
    match goal with
    | |- context [DER.add_object ?t ?c] =>
        pose proof (add_object_length t c)
    end; lia.
Qed.

(** The encoding of a record is at least as long as the smallest
    ciphertext [Session::decrypt] accepts once its master secret has the
    protocol's length. *)
Lemma DER_encode_length (s : Session) :
  length (m_master_secret s) = MASTER_SECRET_LENGTH ->
  (64 <= length (DER_encode s))%nat.
Proof.
  unfold MASTER_SECRET_LENGTH. intros Hms.
  unfold DER_encode, DER.encode_sequence.
  pose proof (add_object_length DER.SEQUENCE (DER_fields s)) as Hseq.
  unfold DER_fields in *. rewrite !length_app in Hseq.
  pose proof (add_object_length DER.OCTET_STRING (m_master_secret s))
    as Hsecret.
  fold (DER.encode_octets (m_master_secret s)) in Hsecret.
  pose proof (encode_size_t_length
                (static_cast_size_t TLS_SESSION_PARAM_STRUCT_VERSION)).
  pose proof (encode_size_t_length
                (static_cast_size_t (to_time_t (m_start_time s)))).
  pose proof (encode_size_t_length
                (static_cast_size_t (major_version (m_version s)))).
  pose proof (encode_size_t_length
                (static_cast_size_t (minor_version (m_version s)))).
  pose proof (encode_size_t_length (static_cast_size_t (m_ciphersuite s))).
  pose proof (encode_size_t_length
                (static_cast_size_t (m_compression_method s))).
  pose proof (encode_size_t_length (static_cast_size_t (m_fragment_size s))).
  lia.
Qed.

(** The blob written by [Session::encrypt], part by part. *)
Lemma encrypt_parts (s : Session) (master_key : list byte) (g : rng_state) :
  let cipher_key_salt := fst (random_vec g KEY_KDF_SALT_LENGTH) in
  let g1 := snd (random_vec g KEY_KDF_SALT_LENGTH) in
  let mac_key_salt := fst (random_vec g1 KEY_KDF_SALT_LENGTH) in
  let g2 := snd (random_vec g1 KEY_KDF_SALT_LENGTH) in
  let cipher_iv := fst (random_vec g2 16) in
  let ctext :=
    cipher_encrypt (derive_key CIPHER_KEY_LENGTH master_key cipher_key_salt)
                   cipher_iv (DER_encode s) in
  let authenticated :=
    store_be32 SESSION_CRYPTO_MAGIC ++ cipher_key_salt ++ mac_key_salt
      ++ cipher_iv ++ ctext in
  fst (encrypt s master_key g)
  = store_be32 SESSION_CRYPTO_MAGIC ++ cipher_key_salt ++ mac_key_salt
      ++ cipher_iv ++ ctext
      ++ mac_final (derive_key MAC_KEY_LENGTH master_key mac_key_salt)
                   authenticated.
Proof.
  cbv zeta. unfold encrypt.
  destruct (random_vec g KEY_KDF_SALT_LENGTH) as [cks g1].
  cbn [fst snd].
  destruct (random_vec g1 KEY_KDF_SALT_LENGTH) as [mks g2].
  cbn [fst snd].
  destruct (random_vec g2 16) as [iv g3]. cbn [fst snd].
  now rewrite <- !app_assoc.
Qed.

Lemma random_vec_length (g : rng_state) (n : Z) :
  rng_ok -> 0 <= n -> length (fst (random_vec g n)) = Z.to_nat n.
Proof. intros Hrng Hn. pose proof (Hrng g n Hn). lia. Qed.

Lemma mac_final_length (key data : list byte) :
  mac_ok -> length (mac_final key data) = 32%nat.
Proof.
  intros Hmac. pose proof (Hmac key data) as H.
  unfold MAC_OUTPUT_LENGTH in H. lia.
Qed.

(** The blob written by [Session::encrypt] carries a tag that verifies. *)
Lemma encrypt_tag_verifies
    (s : Session) (master_key : list byte) (g : rng_state) :
  rng_ok -> mac_ok ->
  tag_verifies (fst (encrypt s master_key g)) master_key = true.
Proof.
  intros Hrng Hmac. pose proof (encrypt_parts s master_key g) as Hparts.
  cbv zeta in Hparts. rewrite Hparts.
  rewrite blob_tag_verifies;
    try (apply random_vec_length; [assumption|unfold KEY_KDF_SALT_LENGTH; lia]);
    try (now apply mac_final_length); try reflexivity.
  apply same_mem_refl.
Qed.

(** C1: Codec round trip: for every valid session record, decoding the
    bytes produced by [DER_encode] succeeds and yields a record whose
    every field equals the corresponding field of the original: the
    identifier, ticket, master secret and certificate chain (in order), the
    protocol version, ciphersuite, compression method, connection side,
    fragment size, server hostname, service and port and the SRP
    identifier are equal, and the creation time is equal in whole
    seconds; a record created on a whole second is reproduced
    identically. *)
Theorem codec_round_trip (s : Session) :
  X509_codec_ok -> clock_ok -> valid_session s ->
  exists s',
    Session_from_ber (DER_encode s) = Ok s'
    /\ same_fields s s'
    /\ (whole_seconds s -> s' = s).
Proof.
  intros Hx Hclock [Hrange _]. exists (at_seconds_resolution s).
  split; [|split].
  - now apply Session_from_ber_DER_encode.
  - now apply at_seconds_resolution_same_fields.
  - apply at_seconds_resolution_whole.
Qed.

(** C3: Encrypt output structure: the blob made by [Session::encrypt] is
    the four magic bytes [57 1B 0E 4F], the 10-byte cipher-key salt, the
    10-byte MAC-key salt, the 16-byte IV, the ciphertext of the encoded
    record and last the 32-byte tag; the tag is the MAC, under the key
    derived from the long-term key and the MAC-key salt, of every byte
    before it. *)
Theorem encrypt_output_structure
    (s : Session) (master_key : list byte) (g : rng_state) :
  rng_ok -> mac_ok ->
  exists cipher_key_salt mac_key_salt cipher_iv ctext tag,
    fst (encrypt s master_key g)
    = store_be32 SESSION_CRYPTO_MAGIC ++ cipher_key_salt ++ mac_key_salt
        ++ cipher_iv ++ ctext ++ tag
    /\ store_be32 SESSION_CRYPTO_MAGIC
       = [Byte.x57; Byte.x1b; Byte.x0e; Byte.x4f]
    /\ length cipher_key_salt = 10%nat
    /\ length mac_key_salt = 10%nat
    /\ length cipher_iv = 16%nat
    /\ length tag = 32%nat
    /\ ctext
       = cipher_encrypt
           (derive_key CIPHER_KEY_LENGTH master_key cipher_key_salt)
           cipher_iv (DER_encode s)
    /\ tag
       = mac_final (derive_key MAC_KEY_LENGTH master_key mac_key_salt)
           (store_be32 SESSION_CRYPTO_MAGIC ++ cipher_key_salt
              ++ mac_key_salt ++ cipher_iv ++ ctext).
Proof.
  intros Hrng Hmac. pose proof (encrypt_parts s master_key g) as Hparts.
  cbv zeta in Hparts.
  do 5 eexists. split; [exact Hparts|].
  split; [reflexivity|].
  repeat split.
  - pose proof (Hrng g KEY_KDF_SALT_LENGTH) as H.
    unfold KEY_KDF_SALT_LENGTH in *. lia.
  - pose proof (Hrng (snd (random_vec g KEY_KDF_SALT_LENGTH))
                  KEY_KDF_SALT_LENGTH) as H.
    unfold KEY_KDF_SALT_LENGTH in *. lia.
  - match goal with
    | |- length (fst (random_vec ?g0 16)) = _ =>
        pose proof (Hrng g0 16) as H
    end. lia.
  - match goal with
    | |- length (mac_final ?k ?d) = _ => pose proof (Hmac k d) as H
    end. unfold MAC_OUTPUT_LENGTH in H. lia.
Qed.

(** C2: Envelope round trip: for every valid session record and every
    long-term key, decrypting under that key the blob that
    [Session::encrypt] made succeeds and reproduces every field of the
    record (the creation time in whole seconds, as the codec stores it; a
    record created on a whole second is reproduced identically). *)
Theorem envelope_round_trip
    (s : Session) (master_key : list byte) (g : rng_state) :
  X509_codec_ok -> clock_ok -> cipher_ok -> mac_ok -> rng_ok ->
  valid_session s ->
  exists s',
    outcome_of (decrypt (fst (encrypt s master_key g)) master_key) = Ok s'
    /\ same_fields s s'
    /\ (whole_seconds s -> s' = s).
Proof.
  intros Hx Hclock Hcipher Hmac Hrng [Hrange Hsecret].
  exists (at_seconds_resolution s).
  split;
    [|split; [now apply at_seconds_resolution_same_fields
             |apply at_seconds_resolution_whole]].
  pose proof (encrypt_tag_verifies s master_key g Hrng Hmac) as Htag.
  pose proof (encrypt_parts s master_key g) as Hparts.
  cbv zeta in Hparts. rewrite Hparts in *. clear Hparts.
  set (cks := fst (random_vec g KEY_KDF_SALT_LENGTH)) in *.
  set (g1 := snd (random_vec g KEY_KDF_SALT_LENGTH)) in *.
  set (mks := fst (random_vec g1 KEY_KDF_SALT_LENGTH)) in *.
  set (g2 := snd (random_vec g1 KEY_KDF_SALT_LENGTH)) in *.
  set (iv := fst (random_vec g2 16)) in *.
  set (ctext := cipher_encrypt
                  (derive_key CIPHER_KEY_LENGTH master_key cks) iv
                  (DER_encode s)) in *.
  set (tag := mac_final _ _) in *.
  assert (Hheader : length (store_be32 SESSION_CRYPTO_MAGIC) = 4%nat)
    by reflexivity.
  assert (Hcks : length cks = 10%nat)
    by (apply random_vec_length; [assumption|unfold KEY_KDF_SALT_LENGTH; lia]).
  assert (Hmks : length mks = 10%nat)
    by (apply random_vec_length; [assumption|unfold KEY_KDF_SALT_LENGTH; lia]).
  assert (Hiv : length iv = 16%nat)
    by (apply random_vec_length; [assumption|lia]).
  assert (Htagl : length tag = 32%nat) by now apply mac_final_length.
  destruct (Hcipher (derive_key CIPHER_KEY_LENGTH master_key cks) iv
              (DER_encode s)) as [Hdec Hgrow].
  pose proof (DER_encode_length s Hsecret) as Hplain.
  rewrite decrypt_authentic.
  - cbn [outcome_of snd]. unfold cipher_key_of.
    rewrite blob_cipher_key_salt_eq, blob_cipher_iv_eq, blob_ctext_eq
      by assumption.
    fold ctext in Hdec. rewrite Hdec.
    rewrite Session_from_ber_DER_encode by assumption. reflexivity.
  - assumption.
  - rewrite blob_length by assumption. fold ctext in Hgrow. lia.
  - rewrite blob_header by assumption. reflexivity.
  - exact Htag.
Qed.

Lemma blob_tag_length (buf : list byte) :
  (32 <= length buf)%nat -> length (blob_tag buf) = 32%nat.
Proof.
  intros H. unfold blob_tag. rewrite firstn_length_le; [reflexivity|].
  rewrite length_skipn. lia.
Qed.

Lemma blob_split (buf : list byte) :
  (32 <= length buf)%nat -> buf = blob_authenticated buf ++ blob_tag buf.
Proof.
  intros H. unfold blob_authenticated, blob_tag.
  rewrite (firstn_all2 (n := 32)) by (rewrite length_skipn; lia).
  symmetry. apply firstn_skipn.
Qed.

Lemma blob_mac_key_salt_authenticated (buf : list byte) :
  (56 <= length buf)%nat ->
  blob_mac_key_salt buf = firstn 10 (skipn 14 (blob_authenticated buf)).
Proof.
  intros H. unfold blob_mac_key_salt, blob_authenticated.
  rewrite skipn_firstn_comm, firstn_firstn.
  f_equal. lia.
Qed.

Lemma tag_verifies_eq (buf master_key : list byte) :
  mac_ok -> (32 <= length buf)%nat ->
  tag_verifies buf master_key = true ->
  blob_tag buf
  = mac_final (mac_key_of buf master_key) (blob_authenticated buf).
Proof.
  intros Hmac Hlen Htag. unfold tag_verifies in Htag.
  apply same_mem_true_iff in Htag; [exact Htag|].
  rewrite blob_tag_length by assumption.
  match goal with
  | |- _ = length (mac_final ?k ?d) => pose proof (Hmac k d) as Hm
  end.
  unfold MAC_OUTPUT_LENGTH in Hm. lia.
Qed.

(** X11: Tampering reduces to forging a MAC: when [Session::decrypt]
    returns a session for a blob that differs from an authentic one, the
    part of the blob before the tag differs too, and the tag of the blob is
    the MAC of that different message under the key derived from the blob's
    own salt. *)
Lemma accepted_modification_is_forgery
    (authentic modified master_key : list byte) (s : Session) :
  mac_ok ->
  (32 <= length authentic)%nat ->
  tag_verifies authentic master_key = true ->
  modified <> authentic ->
  outcome_of (decrypt modified master_key) = Ok s ->
  blob_authenticated modified <> blob_authenticated authentic
  /\ blob_tag modified
     = mac_final (mac_key_of modified master_key)
         (blob_authenticated modified).
Proof.
  intros Hmac Hlen Hauth Hdiff Hok.
  destruct (decrypt_returns_only_authentic modified master_key s Hmac Hok)
    as (Hlong & _ & Htag).
  assert (Hlen' : (136 <= length modified)%nat) by lia.
  pose proof (tag_verifies_eq modified master_key Hmac ltac:(lia) Htag)
    as Hmod.
  pose proof (tag_verifies_eq authentic master_key Hmac Hlen Hauth) as Horig.
  split; [|exact Hmod].
  intros Hsame. apply Hdiff.
  assert (Hsize : length authentic = length modified).
  { apply (f_equal (@length byte)) in Hsame.
    unfold blob_authenticated in Hsame.
    rewrite !firstn_length_le in Hsame by lia. lia. }
  rewrite (blob_split modified) by lia.
  rewrite (blob_split authentic) by lia.
  rewrite Hmod, Horig. unfold mac_key_of.
  rewrite (blob_mac_key_salt_authenticated modified) by lia.
  rewrite (blob_mac_key_salt_authenticated authentic) by lia.
  now rewrite Hsame.
Qed.

(** C4: Decrypt ordering: [Session::decrypt] calls the collaborators in
    one order only: derive the MAC key, compute the MAC over everything
    but the trailing tag, and only when the stored tag equals it derive
    the cipher key and run the cipher.  For every blob whose tag does not
    verify, the call throws and neither the cipher-key derivation nor the
    cipher was called. *)
Theorem decrypt_authenticates_before_decrypting
    (buf master_key : list byte) :
  mac_ok ->
  (calls_of (decrypt buf master_key) = []
   \/ calls_of (decrypt buf master_key)
      = authentication_calls buf master_key
   \/ (tag_verifies buf master_key = true
       /\ calls_of (decrypt buf master_key)
          = authentication_calls buf master_key
              ++ decryption_calls buf master_key))
  /\ (tag_verifies buf master_key = false ->
      (exists e, outcome_of (decrypt buf master_key) = Throw e)
      /\ (calls_of (decrypt buf master_key) = []
          \/ calls_of (decrypt buf master_key)
             = authentication_calls buf master_key)
      /\ forallb (fun c => negb (is_decryption_call c))
           (calls_of (decrypt buf master_key)) = true).
Proof.
  intros Hmac.
  destruct (Z.ltb_spec (Z.of_nat (length buf)) 136) as [Hshort|Hlong].
  { rewrite decrypt_short by assumption. cbn. split; [auto|].
    intros _. split; [eauto|]. split; [auto|reflexivity]. }
  destruct (Z.eq_dec (load_be32 (firstn 4 buf)) SESSION_CRYPTO_MAGIC)
    as [Hmagic|Hmagic].
  2:{ rewrite decrypt_bad_magic by assumption. cbn. split; [auto|].
      intros _. split; [eauto|]. split; [auto|reflexivity]. }
  destruct (tag_verifies buf master_key) eqn:Htag.
  - rewrite decrypt_authentic by assumption. cbn [calls_of fst].
    split; [auto|]. discriminate.
  - rewrite decrypt_bad_mac by assumption. cbn [calls_of outcome_of fst snd].
    split; [auto|]. intros _. split; [eauto|]. split; [auto|reflexivity].
Qed.

(** C6: Minimum-length guard: the fixed-size fields (4 + 10 + 10 + 16 +
    32 bytes) and the 64-byte ciphertext minimum add up to 136; every blob
    shorter than that is rejected with the too-short error, no collaborator
    having been called; and on no input, of any length, does
    [Session::decrypt] read outside the buffer (its MAC producing the 32
    bytes the layout reserves for the tag). *)
Theorem decrypt_length_guard (buf master_key : list byte) :
  MAGIC_LENGTH + 2 * KEY_KDF_SALT_LENGTH + CIPHER_IV_LENGTH + 4 * 16
    + MAC_OUTPUT_LENGTH = 136
  /\ (Z.of_nat (length buf) < 136 ->
      decrypt buf master_key
      = ([], Throw (mk_exception Decoding_Error
                      ("Failed to decrypt encrypted session -" ++
                       "Encrypted TLS session too short to be valid"))))
  /\ (mac_ok -> outcome_of (decrypt buf master_key) <> OutOfBounds).
Proof.
  split; [reflexivity|]. split.
  - intros Hshort. now rewrite decrypt_short.
  - intros Hmac.
    destruct (Z.ltb_spec (Z.of_nat (length buf)) 136) as [Hshort|Hlong].
    { rewrite decrypt_short by assumption. discriminate. }
    destruct (Z.eq_dec (load_be32 (firstn 4 buf)) SESSION_CRYPTO_MAGIC)
      as [Hmagic|Hmagic].
    2:{ rewrite decrypt_bad_magic by assumption. discriminate. }
    destruct (tag_verifies buf master_key) eqn:Htag.
    + rewrite decrypt_authentic by assumption. cbn [outcome_of snd].
      destruct (cipher_decrypt _ _ _) as [ber|e]; [|discriminate].
      pose proof (Session_from_ber_in_bounds ber).
      destruct (Session_from_ber ber); congruence.
    + rewrite decrypt_bad_mac by assumption. discriminate.
Qed.

(** C7 (as amended): Every exception that leaves [Session::decrypt] is a
    [Decoding_Error] whose message is the fixed text
    "Failed to decrypt encrypted session -" followed by the message of
    the exception that caused the failure. *)
Theorem decrypt_failure_wraps_cause
    (buf master_key : list byte) (e : exception) :
  outcome_of (decrypt buf master_key) = Throw e ->
  exists cause,
    outcome_of (decrypt_body buf master_key) = Throw cause
    /\ e = mk_exception Decoding_Error
             ("Failed to decrypt encrypted session -" ++ what cause).
Proof.
  unfold decrypt, try_catch, throw, outcome_of.
  destruct (decrypt_body buf master_key) as [cs [s0|e0| |]];
    cbn [snd]; intros H; try discriminate.
  exists e0. split; [reflexivity|]. now inversion H.
Qed.

(** C8: Magic and version rejection: [Session::decrypt] fails on every
    blob whose first four bytes are not the magic constant, and the
    decoding constructor throws the Decoding error
    "Unknown version in session structure" on every input whose leading
    integer is not [TLS_SESSION_PARAM_STRUCT_VERSION]. *)
Theorem magic_and_version_rejected :
  (forall buf master_key,
      firstn 4 buf <> store_be32 SESSION_CRYPTO_MAGIC ->
      exists e, outcome_of (decrypt buf master_key) = Throw e)
  /\ (forall ber inner parent marker rest,
        BER.start_cons DER.SEQUENCE ber = Returns (inner, parent) ->
        BER.decode_size_t inner = Returns (marker, rest) ->
        marker <> static_cast_size_t TLS_SESSION_PARAM_STRUCT_VERSION ->
        Session_from_ber ber
        = Throw (mk_exception Decoding_Error
                   "Unknown version in session structure")).
Proof.
  split.
  - intros buf master_key Hmagic.
    destruct (Z.ltb_spec (Z.of_nat (length buf)) 136) as [Hshort|Hlong].
    { rewrite decrypt_short by assumption. cbn. eauto. }
    rewrite decrypt_bad_magic; [cbn; eauto|assumption|].
    intros Hload. apply Hmagic. apply be_value_inj.
    + rewrite firstn_length_le by lia. reflexivity.
    + exact Hload.
  - intros ber inner parent marker rest Hcons Hmarker Hne.
    unfold Session_from_ber, decode_fields, BER.decode_and_check.
    rewrite Hcons, Hmarker. apply Z.eqb_neq in Hne. rewrite Hne.
    reflexivity.
Qed.

(** C9 (as amended): The decoding constructor applies no minimum to the
    master secret: for every record whose fields are in range, whatever
    the length of its master secret, decoding its encoding succeeds and
    the decoded record carries that same master secret.  The only size
    check is the one of [Session::decrypt], which rejects blobs shorter
    than 136 bytes. *)
Theorem master_secret_length_unchecked (s : Session) :
  X509_codec_ok -> clock_ok -> fields_in_range s ->
  (exists s',
      Session_from_ber (DER_encode s) = Ok s'
      /\ m_master_secret s' = m_master_secret s)
  /\ (forall buf master_key,
        Z.of_nat (length buf) < 136 ->
        exists e, outcome_of (decrypt buf master_key) = Throw e).
Proof.
  intros Hx Hclock Hrange. split.
  - exists (at_seconds_resolution s). split; [|reflexivity].
    now apply Session_from_ber_DER_encode.
  - intros buf master_key Hshort. rewrite decrypt_short by assumption.
    cbn. eauto.
Qed.

(** C10: Connection side is not validated on decode: for every record
    and every byte value, including values that name no side, decoding
    the encoding of the record with that value in its connection-side
    field succeeds, and the connection side of the result is that value
    cast to the enum. *)
Theorem connection_side_not_validated (s : Session) (side_code : byte) :
  X509_codec_ok -> clock_ok ->
  fields_in_range
    (with_connection_side s (Connection_Side_of_code (Z_of_byte side_code))) ->
  exists s',
    Session_from_ber
      (DER_encode
         (with_connection_side s
            (Connection_Side_of_code (Z_of_byte side_code))))
    = Ok s'
    /\ m_connection_side s' = Connection_Side_of_code (Z_of_byte side_code).
Proof.
  intros Hx Hclock Hrange.
  eexists. split.
  - now apply Session_from_ber_DER_encode.
  - reflexivity.
Qed.

End Specified_Properties.

(** ** The properties on concrete sessions and blobs *)

Module Examples.
Import Test_Doubles.

Lemma test_x509_ok : X509_codec_ok.
Proof. intros c rest. split; [reflexivity|discriminate]. Qed.

Lemma test_clock_ok : clock_ok.
Proof. reflexivity. Qed.

Lemma byte_of_Z_mod (z : Z) : byte_of_Z (z mod 256) = byte_of_Z z.
Proof. unfold byte_of_Z. rewrite Z.mod_mod by lia. reflexivity. Qed.

Lemma shift_back (k : Z) (b : byte) :
  byte_of_Z (Z_of_byte (byte_of_Z (Z_of_byte b + k)) - k) = b.
Proof.
  rewrite Z_of_byte_of_Z, <- byte_of_Z_mod, Zminus_mod_idemp_l.
  replace (Z_of_byte b + k - k) with (Z_of_byte b) by lia.
  rewrite byte_of_Z_mod. apply byte_of_Z_of_byte.
Qed.

Lemma test_cipher_ok : cipher_ok.
Proof.
  intros key iv plaintext. cbn [cipher_encrypt cipher_decrypt test_cipher].
  unfold test_cipher_decrypt. split.
  - rewrite length_app, length_map, repeat_length.
    replace (length plaintext + 16 <? 16)%nat with false
      by (symmetry; apply Nat.ltb_ge; lia).
    replace (length plaintext + 16 - 16)%nat with (length plaintext) by lia.
    rewrite firstn_app_exact by apply length_map.
    rewrite map_map. f_equal.
    rewrite <- (map_id plaintext) at 2. apply map_ext.
    intros b. apply shift_back.
  - rewrite length_app, length_map. lia.
Qed.

Lemma test_mac_ok : mac_ok.
Proof.
  intros key data. cbn [mac_final test_mac].
  now rewrite be_bytes_length.
Qed.

Lemma test_rng_ok : rng_ok.
Proof.
  intros g n Hn. cbn [random_vec test_rng fst].
  rewrite be_bytes_length. lia.
Qed.

Example short_secret_ber_is_an_encoding :
  DER_encode short_secret_session = short_secret_ber.
Proof. vm_compute. reflexivity. Qed.

Example example_blob_decrypts :
  outcome_of (decrypt example_blob example_key)
  = Ok (at_seconds_resolution example_session).
Proof. vm_compute. reflexivity. Qed.

Example forged_blob_rejected :
  decrypt forged_blob example_key
  = (authentication_calls forged_blob example_key,
     Throw (mk_exception Decoding_Error
              ("Failed to decrypt encrypted session -" ++
               "MAC verification failed for encrypted session"))).
Proof. vm_compute. reflexivity. Qed.

Lemma codec_round_trip_witness :
  exists s',
    Session_from_ber (DER_encode example_session_with_chain) = Ok s'
    /\ same_fields example_session_with_chain s'
    /\ (whole_seconds example_session_with_chain ->
        s' = example_session_with_chain).
Proof.
  apply codec_round_trip.
  - exact test_x509_ok.
  - exact test_clock_ok.
  - repeat split; vm_compute; congruence.
Defined.

Lemma envelope_round_trip_witness :
  exists s',
    outcome_of
      (decrypt (fst (encrypt example_session example_key 0)) example_key)
    = Ok s'
    /\ same_fields example_session s'
    /\ (whole_seconds example_session -> s' = example_session).
Proof.
  apply envelope_round_trip.
  - exact test_x509_ok.
  - exact test_clock_ok.
  - exact test_cipher_ok.
  - exact test_mac_ok.
  - exact test_rng_ok.
  - repeat split; vm_compute; congruence.
Defined.

Lemma encrypt_output_structure_witness :
  exists cipher_key_salt mac_key_salt cipher_iv ctext tag,
    fst (encrypt example_session example_key 0)
    = store_be32 SESSION_CRYPTO_MAGIC ++ cipher_key_salt ++ mac_key_salt
        ++ cipher_iv ++ ctext ++ tag
    /\ store_be32 SESSION_CRYPTO_MAGIC
       = [Byte.x57; Byte.x1b; Byte.x0e; Byte.x4f]
    /\ length cipher_key_salt = 10%nat
    /\ length mac_key_salt = 10%nat
    /\ length cipher_iv = 16%nat
    /\ length tag = 32%nat
    /\ ctext
       = cipher_encrypt
           (derive_key CIPHER_KEY_LENGTH example_key cipher_key_salt)
           cipher_iv (DER_encode example_session)
    /\ tag
       = mac_final (derive_key MAC_KEY_LENGTH example_key mac_key_salt)
           (store_be32 SESSION_CRYPTO_MAGIC ++ cipher_key_salt
              ++ mac_key_salt ++ cipher_iv ++ ctext).
Proof.
  apply encrypt_output_structure.
  - exact test_rng_ok.
  - exact test_mac_ok.
Defined.

Lemma decrypt_authenticates_before_decrypting_witness :
  tag_verifies forged_blob example_key = false
  /\ (exists e, outcome_of (decrypt forged_blob example_key) = Throw e)
  /\ (calls_of (decrypt forged_blob example_key) = []
      \/ calls_of (decrypt forged_blob example_key)
         = authentication_calls forged_blob example_key)
  /\ forallb (fun c => negb (is_decryption_call c))
       (calls_of (decrypt forged_blob example_key)) = true.
Proof.
  split.
  - vm_compute. reflexivity.
  - apply (proj2 (decrypt_authenticates_before_decrypting
                    forged_blob example_key test_mac_ok)).
    vm_compute. reflexivity.
Defined.

Lemma decrypt_length_guard_witness :
  Z.of_nat (length [Byte.x57; Byte.x1b; Byte.x0e]) < 136
  /\ decrypt [Byte.x57; Byte.x1b; Byte.x0e] example_key
     = ([], Throw (mk_exception Decoding_Error
                     ("Failed to decrypt encrypted session -" ++
                      "Encrypted TLS session too short to be valid")))
  /\ outcome_of (decrypt example_blob example_key) <> OutOfBounds.
Proof.
  split; [reflexivity|]. split.
  - apply (proj1 (proj2 (decrypt_length_guard
                           [Byte.x57; Byte.x1b; Byte.x0e] example_key))).
    reflexivity.
  - apply (proj2 (proj2 (decrypt_length_guard example_blob example_key))).
    exact test_mac_ok.
Defined.

Lemma decrypt_failure_wraps_cause_witness :
  exists cause,
    outcome_of (decrypt_body headerless_blob example_key) = Throw cause
    /\ mk_exception Decoding_Error
         ("Failed to decrypt encrypted session -" ++
          "Unknown header value in encrypted session")
       = mk_exception Decoding_Error
           ("Failed to decrypt encrypted session -" ++ what cause).
Proof.
  apply (decrypt_failure_wraps_cause headerless_blob example_key).
  vm_compute. reflexivity.
Defined.

Lemma magic_and_version_rejected_witness :
  (exists e, outcome_of (decrypt headerless_blob example_key) = Throw e)
  /\ Session_from_ber other_version_ber
     = Throw (mk_exception Decoding_Error
                "Unknown version in session structure").
Proof.
  split.
  - apply (proj1 magic_and_version_rejected headerless_blob example_key).
    vm_compute. discriminate.
  - apply (proj2 magic_and_version_rejected other_version_ber
             [Byte.x02; Byte.x01; Byte.x07] [] 7 []).
    + vm_compute. reflexivity.
    + vm_compute. reflexivity.
    + vm_compute. discriminate.
Defined.

Lemma master_secret_length_unchecked_witness :
  (exists s',
      Session_from_ber (DER_encode short_secret_session) = Ok s'
      /\ m_master_secret s' = m_master_secret short_secret_session)
  /\ (forall buf master_key,
        Z.of_nat (length buf) < 136 ->
        exists e, outcome_of (decrypt buf master_key) = Throw e).
Proof.
  apply master_secret_length_unchecked.
  - exact test_x509_ok.
  - exact test_clock_ok.
  - repeat split; vm_compute; congruence.
Defined.

Lemma connection_side_not_validated_witness :
  exists s',
    Session_from_ber
      (DER_encode
         (with_connection_side example_session
            (Connection_Side_of_code (Z_of_byte Byte.xff))))
    = Ok s'
    /\ m_connection_side s' = Connection_Side_of_code (Z_of_byte Byte.xff).
Proof.
  apply connection_side_not_validated.
  - exact test_x509_ok.
  - exact test_clock_ok.
  - repeat split; vm_compute; congruence.
Defined.

(** C7, as stated, fails: a blob that is too short and a blob with a wrong
    header both make [Session::decrypt] fail, and the caller receives two
    different exceptions, each naming its cause. *)
Lemma decrypt_failure_cause_visible :
  exists e1 e2,
    outcome_of (decrypt [] example_key) = Throw e1
    /\ outcome_of (decrypt headerless_blob example_key) = Throw e2
    /\ what e1
       = ("Failed to decrypt encrypted session -" ++
          "Encrypted TLS session too short to be valid")%string
    /\ what e2
       = ("Failed to decrypt encrypted session -" ++
          "Unknown header value in encrypted session")%string
    /\ e1 <> e2.
Proof.
  do 2 eexists. split; [vm_compute; reflexivity|].
  split; [vm_compute; reflexivity|].
  split; [reflexivity|]. split; [reflexivity|]. discriminate.
Qed.

(** C9, as stated, fails: an input whose master-secret field has four
    bytes is decoded, and the record carries the four-byte secret. *)
Lemma short_master_secret_accepted :
  exists s,
    Session_from_ber short_secret_ber = Ok s
    /\ m_master_secret s = [Byte.xde; Byte.xad; Byte.xbe; Byte.xef]
    /\ (length (m_master_secret s) < MASTER_SECRET_LENGTH)%nat.
Proof.
  eexists. split; [vm_compute; reflexivity|].
  split; [reflexivity|]. vm_compute. lia.
Qed.

End Examples.

(* ================================================================== *)
(** * Further properties of the code *)

(** ** Framing of the encoded record *)

Section Codec_Framing.

Context {x509 : X509_Codec} {platform : Platform}.

(** The encoded fields followed by [extra] inside the SEQUENCE, and the
    SEQUENCE followed by [parent]: the reader takes the fields, then
    [end_cons] looks at [extra] and [verify_end] at [parent]. *)
Lemma decode_fields_framed (s : Session) (extra parent : list byte) :
  clock_ok -> fields_in_range s ->
  Z.of_nat (length (DER_fields s ++ extra)) < 2 ^ 32 ->
  decode_fields (DER.encode_sequence (DER_fields s ++ extra) ++ parent)
  = match extra, parent with
    | _ :: _, _ =>
        Raises (mk_exception Decoding_Error
                  "BER_Decoder::end_cons called with data left")
    | [], _ :: _ =>
        Raises (mk_exception Decoding_Error
                  "BER_Decoder::verify_end called, but data remains")
    | [], [] =>
        Returns
          ({| m_start_time := from_time_t (to_time_t (m_start_time s));
              m_identifier := m_identifier s;
              m_session_ticket := m_session_ticket s;
              m_master_secret := m_master_secret s;
              m_version := m_version s;
              m_ciphersuite := m_ciphersuite s;
              m_compression_method := m_compression_method s;
              m_connection_side := m_connection_side s;
              m_fragment_size := m_fragment_size s;
              m_peer_certs := [];
              m_server_info := m_server_info s;
              m_srp_identifier := m_srp_identifier s |},
           encode_peer_certs (m_peer_certs s))
    end.
Proof.
  intros Hclock (Ht & Hmaj & Hmin & Hcs & Hcm & Hside & Hfs & Hport & Hlen)
         Hframe.
  unfold decode_fields.
  rewrite start_cons_encode_sequence by assumption.
  assert (Hl := Hlen). unfold DER_fields in Hl. rewrite !length_app in Hl.
  pose proof (encode_octets_length (m_identifier s)).
  pose proof (encode_octets_length (m_session_ticket s)).
  pose proof (encode_octets_length (m_master_secret s)).
  pose proof (encode_octets_length (encode_peer_certs (m_peer_certs s))).
  pose proof (encode_string_length (hostname (m_server_info s))).
  pose proof (encode_string_length (service (m_server_info s))).
  pose proof (encode_string_length (m_srp_identifier s)).
  unfold DER_fields. rewrite <- !app_assoc.
  rewrite decode_and_check_encode by apply static_cast_size_t_range.
  rewrite decode_constrained_integer_encode
    by (try apply static_cast_size_t_range; unfold sizeof_size_t; lia).
  rewrite !static_cast_size_t_id by lia.
  unfold BER.decode_size_t.
  repeat first
    [ rewrite decode_constrained_integer_encode
        by (unfold sizeof_size_t, sizeof_u16bit, sizeof_byte;
            cbn [Z.mul Pos.mul]; lia)
    | rewrite decode_octets_encode by lia
    | rewrite decode_string_encode by lia ].
  rewrite static_cast_time_t_size_t by lia.
  destruct s as [st id tk ms [maj mn] cs cm [sd] fs pc [h sv pt] srp].
  destruct extra as [|x extra]; [|reflexivity].
  destruct parent as [|y parent]; reflexivity.
Qed.

(** X1: Bytes after the encoded record are not ignored: for every record
    whose fields are in range, the decoding constructor throws on the
    encoding followed by any non-empty byte string. *)
Theorem trailing_bytes_rejected (s : Session) (trailing : list byte) :
  clock_ok -> fields_in_range s -> trailing <> [] ->
  exists e, Session_from_ber (DER_encode s ++ trailing) = Throw e.
Proof.
  intros Hclock Hrange Htrail. unfold Session_from_ber, DER_encode.
  rewrite <- (app_nil_r (DER_fields s)).
  rewrite decode_fields_framed; try assumption.
  - destruct trailing; [congruence|eauto].
  - rewrite app_nil_r. apply Hrange.
Qed.

(** X2: Nor are bytes after the last field inside the SEQUENCE: the
    decoding constructor throws when anything follows the SRP identifier
    within the container. *)
Theorem surplus_fields_rejected (s : Session) (surplus : list byte) :
  clock_ok -> fields_in_range s -> surplus <> [] ->
  Z.of_nat (length (DER_fields s ++ surplus)) < 2 ^ 32 ->
  exists e,
    Session_from_ber (DER.encode_sequence (DER_fields s ++ surplus))
    = Throw e.
Proof.
  intros Hclock Hrange Hsurplus Hlen. unfold Session_from_ber.
  rewrite <- (app_nil_r (DER.encode_sequence (DER_fields s ++ surplus))).
  rewrite decode_fields_framed by assumption.
  destruct surplus; [congruence|eauto].
Qed.

End Codec_Framing.

(** ** The certificate chain and the shape of decoded records *)

Section Codec_Chain.

Context {x509 : X509_Codec} {platform : Platform}.

(** The decoder chain leaves the certificate list empty; only the loop
    fills it. *)
Lemma decode_fields_no_certs (ber bits : list byte) (s0 : Session) :
  decode_fields ber = Returns (s0, bits) -> m_peer_certs s0 = [].
Proof.
  unfold decode_fields.
  repeat match goal with
         | |- context [match ?x with _ => _ end] =>
             destruct x; try (intros; discriminate)
         end.
  intros H. inversion H. reflexivity.
Qed.

Lemma read_certs_malformed (good : list X509_Certificate)
    (bad : list byte) (e : exception) :
  X509_codec_ok -> bad <> [] -> X509_decode bad = Raises e ->
  forall fuel peer_certs,
    (length (concat (map X509_BER_encode good) ++ bad) <= fuel)%nat ->
    read_certs fuel (concat (map X509_BER_encode good) ++ bad) peer_certs
    = Throw e.
Proof.
  intros Hx Hbad He. induction good as [|c cs IH]; intros fuel acc Hfuel.
  - cbn [map concat app] in *.
    destruct fuel as [|fuel]; [destruct bad; [congruence|cbn in Hfuel; lia]|].
    rewrite read_certs_step by assumption. now rewrite He.
  - cbn [map concat] in *. rewrite <- app_assoc in *.
    destruct (Hx c (concat (map X509_BER_encode cs) ++ bad)) as [Hdec Hne].
    rewrite length_app in Hfuel.
    assert (Hpos : (1 <= length (X509_BER_encode c))%nat).
    { destruct (X509_BER_encode c); [congruence|cbn; lia]. }
    destruct fuel as [|fuel]; [lia|].
    rewrite read_certs_step.
    + rewrite Hdec, skipn_app, Nat.sub_diag, skipn_all.
      cbn [skipn app]. apply IH. lia.
    + intros Hnil. apply app_eq_nil in Hnil. tauto.
Qed.

(** X3: Decoding is all or nothing for the certificate chain: when the
    certificate field holds any number of well-formed certificates followed
    by bytes the certificate decoder rejects, the constructor throws the
    certificate decoder's exception; no record with a partial chain is
    returned. *)
Theorem malformed_certificate_rejected
    (ber : list byte) (s0 : Session) (good : list X509_Certificate)
    (bad : list byte) (e : exception) :
  X509_codec_ok ->
  decode_fields ber = Returns (s0, encode_peer_certs good ++ bad) ->
  bad <> [] -> X509_decode bad = Raises e ->
  Session_from_ber ber = Throw e.
Proof.
  intros Hx Hfields Hbad He. unfold Session_from_ber. rewrite Hfields.
  rewrite encode_peer_certs_concat.
  destruct (concat (map X509_BER_encode good) ++ bad) as [|b bits] eqn:Ebits.
  - apply app_eq_nil in Ebits. tauto.
  - rewrite <- Ebits.
    now rewrite (read_certs_malformed good bad e Hx Hbad He) by lia.
Qed.

(** X4: The encoding identifies the record: two records whose fields are
    in range and whose encodings are the same bytes agree on every field,
    the creation time in whole seconds. *)
Theorem DER_encode_injective (s1 s2 : Session) :
  X509_codec_ok -> clock_ok ->
  fields_in_range s1 -> fields_in_range s2 ->
  DER_encode s1 = DER_encode s2 ->
  same_fields s1 s2.
Proof.
  intros Hx Hclock H1 H2 Heq.
  pose proof (Session_from_ber_DER_encode s1 Hx Hclock H1) as D1.
  pose proof (Session_from_ber_DER_encode s2 Hx Hclock H2) as D2.
  rewrite Heq, D2 in D1. inversion D1 as [Hsame].
  pose proof (at_seconds_resolution_same_fields s2 Hclock) as F2.
  pose proof (at_seconds_resolution_same_fields s1 Hclock) as F1.
  unfold at_seconds_resolution in Hsame. inversion Hsame.
  unfold same_fields, to_time_t, from_time_t in *.
  assert (Htime : to_time_t (m_start_time s2) = to_time_t (m_start_time s1)).
  { rewrite <- (to_time_t_from_time_t (to_time_t (m_start_time s2)) Hclock).
    rewrite <- (to_time_t_from_time_t (to_time_t (m_start_time s1)) Hclock).
    unfold from_time_t, to_time_t. congruence. }
  unfold to_time_t in Htime. repeat split; congruence.
Qed.

(** X5: Stored encodings are reproducible: encoding the record that the
    constructor decoded from an encoding gives the same bytes again. *)
Theorem reencoding_is_identical (s : Session) :
  X509_codec_ok -> clock_ok -> fields_in_range s ->
  exists s',
    Session_from_ber (DER_encode s) = Ok s' /\ DER_encode s' = DER_encode s.
Proof.
  intros Hx Hclock Hrange. exists (at_seconds_resolution s). split.
  - now apply Session_from_ber_DER_encode.
  - unfold DER_encode, DER_fields, at_seconds_resolution.
    cbn [m_start_time m_identifier m_session_ticket m_master_secret
         m_version m_ciphersuite m_compression_method m_connection_side
         m_fragment_size m_peer_certs m_server_info m_srp_identifier].
    now rewrite to_time_t_from_time_t.
Qed.

Lemma read_certs_enough_fuel :
  X509_decode_consumes ->
  forall fuel certs peer_certs,
    (length certs <= fuel)%nat ->
    read_certs fuel certs peer_certs <> OutOfFuel.
Proof.
  intros Hconsumes. induction fuel as [|fuel IH]; intros certs acc Hfuel.
  - destruct certs; [discriminate|cbn in Hfuel; lia].
  - destruct certs as [|b certs]; [discriminate|].
    rewrite read_certs_step by discriminate.
    destruct (X509_decode (b :: certs)) as [[c consumed]|e] eqn:Hdec;
      [|discriminate].
    apply IH. apply Hconsumes in Hdec. rewrite length_skipn.
    cbn [length] in *. lia.
Qed.

Lemma Session_from_ber_enough_fuel (ber : list byte) :
  X509_decode_consumes -> Session_from_ber ber <> OutOfFuel.
Proof.
  intros Hconsumes. unfold Session_from_ber.
  destruct (decode_fields ber) as [[s0 [|b bits]]|e]; try discriminate.
  pose proof (read_certs_enough_fuel Hconsumes (length (b :: bits))
                (b :: bits) (m_peer_certs s0) (Nat.le_refl _)) as Hfuel.
  destruct (read_certs (length (b :: bits)) (b :: bits) (m_peer_certs s0));
    congruence.
Qed.

(** X6: The certificate loop ends: when every certificate that parses
    occupies at least one byte, the decoding constructor, on every input,
    either returns a record or throws. *)
Theorem Session_from_ber_returns_or_throws (ber : list byte) :
  X509_decode_consumes ->
  (exists s, Session_from_ber ber = Ok s)
  \/ (exists e, Session_from_ber ber = Throw e).
Proof.
  intros Hconsumes.
  pose proof (Session_from_ber_in_bounds ber) as Hbounds.
  pose proof (Session_from_ber_enough_fuel ber Hconsumes) as Hfuel.
  destruct (Session_from_ber ber); eauto; congruence.
Qed.

End Codec_Chain.

(** ** More on the envelope *)

Section Envelope_Acceptance.

Context {x509 : X509_Codec} {kdf : KDF} {mac : MessageAuthenticationCode}
        {cipher : Cipher} {rng : RandomNumberGenerator}
        {platform : Platform}.

(** X7: [Session::decrypt] returns a session for exactly the blobs that
    are at least 136 bytes long, start with the magic, carry a tag that
    verifies, and whose ciphertext the cipher turns into bytes that the
    decoding constructor accepts; the session returned is the one decoded
    from those bytes. *)
Theorem decrypt_accepts_exactly
    (buf master_key : list byte) (s : Session) :
  mac_ok ->
  outcome_of (decrypt buf master_key) = Ok s
  <-> 136 <= Z.of_nat (length buf)
      /\ load_be32 (firstn 4 buf) = SESSION_CRYPTO_MAGIC
      /\ tag_verifies buf master_key = true
      /\ exists ber,
           cipher_decrypt (cipher_key_of buf master_key)
             (blob_cipher_iv buf) (blob_ctext buf) = Returns ber
           /\ Session_from_ber ber = Ok s.
Proof.
  intros Hmac. split.
  - intros Hok.
    destruct (decrypt_returns_only_authentic buf master_key s Hmac Hok)
      as (Hlong & Hmagic & Htag).
    repeat (split; [assumption|]).
    rewrite decrypt_authentic in Hok by assumption. cbn [outcome_of snd] in Hok.
    destruct (cipher_decrypt _ _ _) as [ber|e]; [|discriminate].
    exists ber. split; [reflexivity|].
    destruct (Session_from_ber ber); congruence.
  - intros (Hlong & Hmagic & Htag & ber & Hdec & Hber).
    rewrite decrypt_authentic by assumption. cbn [outcome_of snd].
    now rewrite Hdec, Hber.
Qed.

(** X8: [Session::decrypt] ends normally on every blob: when every
    certificate that parses occupies at least one byte, it either returns a
    session or throws a [Decoding_Error] whose message starts with
    "Failed to decrypt encrypted session -". *)
Theorem decrypt_returns_or_throws (buf master_key : list byte) :
  mac_ok -> X509_decode_consumes ->
  (exists s, outcome_of (decrypt buf master_key) = Ok s)
  \/ (exists cause,
        outcome_of (decrypt buf master_key)
        = Throw (mk_exception Decoding_Error
                   ("Failed to decrypt encrypted session -" ++ cause))).
Proof.
  intros Hmac Hconsumes.
  destruct (Z.ltb_spec (Z.of_nat (length buf)) 136) as [Hshort|Hlong].
  { rewrite decrypt_short by assumption. right. eexists. reflexivity. }
  destruct (Z.eq_dec (load_be32 (firstn 4 buf)) SESSION_CRYPTO_MAGIC)
    as [Hmagic|Hmagic].
  2:{ rewrite decrypt_bad_magic by assumption. right. eexists. reflexivity. }
  destruct (tag_verifies buf master_key) eqn:Htag.
  - rewrite decrypt_authentic by assumption. cbn [outcome_of snd].
    destruct (cipher_decrypt _ _ _) as [ber|e];
      [|right; eexists; reflexivity].
    pose proof (Session_from_ber_in_bounds ber) as Hbounds.
    pose proof (Session_from_ber_enough_fuel ber Hconsumes) as Hfuel.
    destruct (Session_from_ber ber); try congruence; [left; eauto|].
    right. eexists. reflexivity.
  - rewrite decrypt_bad_mac by assumption. right. eexists. reflexivity.
Qed.

(** X9: [Session::encrypt] does not look at the size of what it encrypts:
    the blob is the ciphertext plus 72 bytes, and when the cipher turns the
    encoded record into fewer than 64 bytes, [Session::decrypt] rejects the
    blob that [Session::encrypt] has just made as too short. *)
Theorem encrypt_output_may_be_too_short
    (s : Session) (master_key : list byte) (g : rng_state) :
  rng_ok -> mac_ok ->
  length (fst (encrypt s master_key g))
  = (72 + length (blob_ctext (fst (encrypt s master_key g))))%nat
  /\ exists cipher_key_salt cipher_iv,
       blob_ctext (fst (encrypt s master_key g))
       = cipher_encrypt
           (derive_key CIPHER_KEY_LENGTH master_key cipher_key_salt)
           cipher_iv (DER_encode s)
       /\ ((length (blob_ctext (fst (encrypt s master_key g))) < 64)%nat ->
           decrypt (fst (encrypt s master_key g)) master_key
           = ([], Throw (mk_exception Decoding_Error
                           ("Failed to decrypt encrypted session -" ++
                            "Encrypted TLS session too short to be valid")))).
Proof.
  intros Hrng Hmac. pose proof (encrypt_parts s master_key g) as Hparts.
  cbv zeta in Hparts. rewrite Hparts. clear Hparts.
  set (cks := fst (random_vec g KEY_KDF_SALT_LENGTH)).
  set (g1 := snd (random_vec g KEY_KDF_SALT_LENGTH)).
  set (mks := fst (random_vec g1 KEY_KDF_SALT_LENGTH)).
  set (g2 := snd (random_vec g1 KEY_KDF_SALT_LENGTH)).
  set (iv := fst (random_vec g2 16)).
  set (ctext := cipher_encrypt
                  (derive_key CIPHER_KEY_LENGTH master_key cks) iv
                  (DER_encode s)).
  set (tag := mac_final _ _).
  assert (Hheader : length (store_be32 SESSION_CRYPTO_MAGIC) = 4%nat)
    by reflexivity.
  assert (Hcks : length cks = 10%nat)
    by (apply random_vec_length; [assumption|unfold KEY_KDF_SALT_LENGTH; lia]).
  assert (Hmks : length mks = 10%nat)
    by (apply random_vec_length; [assumption|unfold KEY_KDF_SALT_LENGTH; lia]).
  assert (Hiv : length iv = 16%nat)
    by (apply random_vec_length; [assumption|lia]).
  assert (Htagl : length tag = 32%nat) by now apply mac_final_length.
  rewrite blob_ctext_eq by assumption.
  split; [now apply blob_length|].
  exists cks, iv. split; [reflexivity|].
  intros Hshort. apply decrypt_short.
  rewrite blob_length by assumption. lia.
Qed.

(** X10: A blob with a replaced tag is never accepted: for an authentic
    blob and any 32 bytes other than its tag in the tag's place,
    [Session::decrypt] throws, having made no call to the cipher. *)
Theorem altered_tag_rejected
    (authentic master_key tag' : list byte) :
  mac_ok ->
  (56 <= length authentic)%nat ->
  tag_verifies authentic master_key = true ->
  length tag' = 32%nat ->
  tag' <> blob_tag authentic ->
  (exists e,
      outcome_of (decrypt (blob_authenticated authentic ++ tag') master_key)
      = Throw e)
  /\ forallb (fun c => negb (is_decryption_call c))
       (calls_of (decrypt (blob_authenticated authentic ++ tag') master_key))
     = true.
Proof.
  intros Hmac Hlen Hauth Htag' Hdiff.
  set (modified := blob_authenticated authentic ++ tag').
  assert (Hprefix : length (blob_authenticated authentic)
                    = (length authentic - 32)%nat).
  { unfold blob_authenticated. apply firstn_length_le. lia. }
  assert (Hsize : length modified = length authentic).
  { unfold modified. rewrite length_app. lia. }
  assert (Hsame : blob_authenticated modified = blob_authenticated authentic).
  { unfold blob_authenticated at 1. rewrite Hsize. unfold modified.
    apply firstn_app_exact. exact Hprefix. }
  assert (Htagm : blob_tag modified = tag').
  { unfold blob_tag. rewrite Hsize. unfold modified.
    rewrite skipn_app_exact by exact Hprefix. apply firstn_all2. lia. }
  assert (Hverify : tag_verifies modified master_key = false).
  { unfold tag_verifies. rewrite Htagm, Hsame.
    rewrite (blob_mac_key_salt_authenticated modified) by lia.
    rewrite Hsame.
    rewrite <- (blob_mac_key_salt_authenticated authentic) by lia.
    pose proof (tag_verifies_eq authentic master_key Hmac ltac:(lia) Hauth)
      as Horig.
    unfold mac_key_of in Horig. rewrite <- Horig.
    destruct (same_mem tag' (blob_tag authentic)) eqn:Hcmp; [|reflexivity].
    apply same_mem_true_iff in Hcmp; [contradiction|].
    rewrite blob_tag_length by lia. exact Htag'. }
  destruct (Z.ltb_spec (Z.of_nat (length modified)) 136) as [Hshort|Hlong].
  { rewrite decrypt_short by assumption. cbn. eauto. }
  destruct (Z.eq_dec (load_be32 (firstn 4 modified)) SESSION_CRYPTO_MAGIC)
    as [Hmagic|Hmagic].
  2:{ rewrite decrypt_bad_magic by assumption. cbn. eauto. }
  rewrite decrypt_bad_mac by assumption. cbn. eauto.
Qed.

End Envelope_Acceptance.

(** ** Text form, construction and age *)

Section Lifecycle_Properties.

Context {x509 : X509_Codec} {platform : Platform} {pem : PEM_Code}.

(** X12: Text round trip: [PEM_encode] and the constructor from PEM text
    use the same label, so for every record whose fields are in range the
    constructor applied to the text that [PEM_encode] produced returns a
    record with the same fields, the creation time in whole seconds. *)
Theorem PEM_round_trip (s : Session) :
  PEM_code_ok -> X509_codec_ok -> clock_ok -> fields_in_range s ->
  exists s',
    Session_from_pem (PEM_encode s) = Ok s' /\ same_fields s s'.
Proof.
  intros Hpem Hx Hclock Hrange. exists (at_seconds_resolution s).
  unfold Session_from_pem, PEM_encode. rewrite Hpem. split.
  - now apply Session_from_ber_DER_encode.
  - now apply at_seconds_resolution_same_fields.
Qed.

(** X13: The age of a session never goes down as the clock advances. *)
Theorem session_age_monotone (s : Session) (now later : Z) :
  clock_ok -> now <= later ->
  session_age s now <= session_age s later.
Proof.
  unfold clock_ok, session_age. intros Hclock Hle.
  apply Z.quot_le_mono; lia.
Qed.

(** X14: Storing a session makes it look at most one second older and
    never younger: for a session created after the epoch and not in the
    future, the record decoded from its encoding has, at the same clock
    reading, the same age or one second more. *)
Theorem stored_session_age (s : Session) (now : Z) :
  X509_codec_ok -> clock_ok -> fields_in_range s ->
  0 <= m_start_time s <= now ->
  exists s',
    Session_from_ber (DER_encode s) = Ok s'
    /\ session_age s now <= session_age s' now <= session_age s now + 1.
Proof.
  intros Hx Hclock Hrange [Hpos Hnow]. exists (at_seconds_resolution s).
  split; [now apply Session_from_ber_DER_encode|].
  unfold session_age, at_seconds_resolution, from_time_t, to_time_t, clock_ok
    in *.
  cbn [m_start_time].
  set (t := system_clock_ticks_per_second) in *.
  set (start := m_start_time s) in *.
  rewrite (Z.quot_div_nonneg start t) by lia.
  pose proof (Z.div_mod start t ltac:(lia)) as Hdm.
  pose proof (Z.mod_pos_bound start t ltac:(lia)) as Hr.
  assert (Hq : 0 <= start / t) by (apply Z.div_pos; lia).
  rewrite !Z.quot_div_nonneg by nia.
  replace (now - start / t * t) with ((now - start) + start mod t) by lia.
  pose proof (Z.div_mod (now - start) t ltac:(lia)) as Ha.
  pose proof (Z.mod_pos_bound (now - start) t ltac:(lia)) as Hb.
  split.
  - apply Z.div_le_mono; lia.
  - assert ((now - start + start mod t) / t < (now - start) / t + 2);
      [|lia].
    apply Z.div_lt_upper_bound; nia.
Qed.

(** X15: [session_age] counts the whole seconds since construction: for a
    session made by the constructor at clock reading [created], the age at
    any later reading is not negative, is zero at [created], and brackets
    the elapsed ticks between that many seconds and one more. *)
Theorem new_session_age
    (created now : Z) (session_identifier master_secret : list byte)
    (version : Protocol_Version) (ciphersuite compression_method : Z)
    (side : Connection_Side) (fragment_size : Z)
    (certs : list X509_Certificate) (ticket : list byte)
    (server_info : Server_Information) (srp_identifier : string) :
  clock_ok -> created <= now ->
  let s := Session_new created session_identifier master_secret version
             ciphersuite compression_method side fragment_size certs ticket
             server_info srp_identifier in
  session_age s created = 0
  /\ 0 <= session_age s now
  /\ session_age s now * system_clock_ticks_per_second <= now - created
  /\ now - created < (session_age s now + 1) * system_clock_ticks_per_second.
Proof.
  unfold clock_ok, session_age, Session_new. intros Hclock Hle.
  cbn [m_start_time].
  set (t := system_clock_ticks_per_second) in *.
  rewrite Z.sub_diag. rewrite Z.quot_0_l by lia.
  rewrite Z.quot_div_nonneg by lia.
  pose proof (Z.div_mod (now - created) t ltac:(lia)) as Hdm.
  pose proof (Z.mod_pos_bound (now - created) t ltac:(lia)) as Hr.
  assert (0 <= (now - created) / t) by (apply Z.div_pos; lia).
  repeat split; nia.
Qed.

End Lifecycle_Properties.

(** ** The further properties on concrete sessions and blobs *)

Module Further_Examples.
Import Test_Doubles Test_Doubles_Text.

Lemma strip_prefix_append (p s : string) :
  strip_prefix p (String.append p s) = Some s.
Proof.
  induction p as [|a p IH]; cbn; [reflexivity|].
  now rewrite Ascii.eqb_refl.
Qed.

Lemma string_append_assoc (a b c : string) :
  String.append (String.append a b) c = String.append a (String.append b c).
Proof. induction a as [|x a IH]; cbn; congruence. Qed.

Lemma test_pem_ok : PEM_code_ok.
Proof.
  intros der label.
  cbn [PEM_Code_encode PEM_Code_decode_check_label test_pem].
  change (String ":" (string_of_list_byte der))
    with (String.append ":" (string_of_list_byte der)).
  rewrite <- string_append_assoc, strip_prefix_append.
  now rewrite list_byte_of_string_of_list_byte.
Qed.

Lemma test_x509_consumes : X509_decode_consumes.
Proof.
  intros src c consumed. cbn [X509_decode test_x509].
  unfold test_X509_decode.
  destruct src as [|t [|l [|x src]]]; try discriminate.
  destruct (Byte.eqb t Byte.x30 && Byte.eqb l Byte.x01); [|discriminate].
  intros H. inversion H. lia.
Qed.

Lemma trailing_bytes_rejected_witness :
  exists e,
    Session_from_ber (DER_encode example_session ++ [Byte.x00]) = Throw e.
Proof.
  apply trailing_bytes_rejected.
  - exact Examples.test_clock_ok.
  - repeat split; vm_compute; congruence.
  - discriminate.
Defined.

Lemma surplus_fields_rejected_witness :
  exists e,
    Session_from_ber
      (DER.encode_sequence
         (DER_fields example_session ++ [Byte.x05; Byte.x00]))
    = Throw e.
Proof.
  apply surplus_fields_rejected.
  - exact Examples.test_clock_ok.
  - repeat split; vm_compute; congruence.
  - discriminate.
  - vm_compute. reflexivity.
Defined.

Lemma malformed_certificate_rejected_witness :
  Session_from_ber broken_chain_ber
  = Throw (mk_exception Decoding_Error "X509 decoding failed").
Proof.
  eapply (@malformed_certificate_rejected test_x509 test_platform
            broken_chain_ber _ [Byte.x41] [Byte.xff]).
  - exact Examples.test_x509_ok.
  - vm_compute. reflexivity.
  - discriminate.
  - reflexivity.
Defined.

Lemma DER_encode_injective_witness :
  same_fields example_session (at_seconds_resolution example_session).
Proof.
  apply DER_encode_injective.
  - exact Examples.test_x509_ok.
  - exact Examples.test_clock_ok.
  - repeat split; vm_compute; congruence.
  - repeat split; vm_compute; congruence.
  - vm_compute. reflexivity.
Defined.

Lemma reencoding_is_identical_witness :
  exists s',
    Session_from_ber (DER_encode example_session_with_chain) = Ok s'
    /\ DER_encode s' = DER_encode example_session_with_chain.
Proof.
  apply reencoding_is_identical.
  - exact Examples.test_x509_ok.
  - exact Examples.test_clock_ok.
  - repeat split; vm_compute; congruence.
Defined.

Lemma Session_from_ber_returns_or_throws_witness :
  (exists s, Session_from_ber broken_chain_ber = Ok s)
  \/ (exists e, Session_from_ber broken_chain_ber = Throw e).
Proof.
  apply Session_from_ber_returns_or_throws. exact test_x509_consumes.
Defined.

Lemma decrypt_accepts_exactly_witness :
  outcome_of (decrypt example_blob example_key)
  = Ok (at_seconds_resolution example_session)
  <-> 136 <= Z.of_nat (length example_blob)
      /\ load_be32 (firstn 4 example_blob) = SESSION_CRYPTO_MAGIC
      /\ tag_verifies example_blob example_key = true
      /\ exists ber,
           cipher_decrypt (cipher_key_of example_blob example_key)
             (blob_cipher_iv example_blob) (blob_ctext example_blob)
           = Returns ber
           /\ Session_from_ber ber = Ok (at_seconds_resolution example_session).
Proof.
  apply decrypt_accepts_exactly. exact Examples.test_mac_ok.
Defined.

Lemma decrypt_returns_or_throws_witness :
  (exists s, outcome_of (decrypt forged_blob example_key) = Ok s)
  \/ (exists cause,
        outcome_of (decrypt forged_blob example_key)
        = Throw (mk_exception Decoding_Error
                   ("Failed to decrypt encrypted session -" ++ cause))).
Proof.
  apply decrypt_returns_or_throws.
  - exact Examples.test_mac_ok.
  - exact test_x509_consumes.
Defined.

Lemma encrypt_output_may_be_too_short_witness :
  (length (blob_ctext (fst (encrypt bare_session example_key 0%Z))) < 64)%nat
  /\ decrypt (fst (encrypt bare_session example_key 0)) example_key
     = ([], Throw (mk_exception Decoding_Error
                     ("Failed to decrypt encrypted session -" ++
                      "Encrypted TLS session too short to be valid"))).
Proof.
  split.
  - vm_compute. lia.
  - destruct (encrypt_output_may_be_too_short (rng := test_rng)
                bare_session example_key 0
                Examples.test_rng_ok Examples.test_mac_ok)
      as (_ & cks & iv & _ & Hshort).
    apply Hshort. vm_compute. lia.
Defined.

Lemma altered_tag_rejected_witness :
  (exists e,
      outcome_of
        (decrypt (blob_authenticated example_blob ++ repeat Byte.xff 32)
                 example_key)
      = Throw e)
  /\ forallb (fun c => negb (is_decryption_call c))
       (calls_of
          (decrypt (blob_authenticated example_blob ++ repeat Byte.xff 32)
                   example_key))
     = true.
Proof.
  apply altered_tag_rejected.
  - exact Examples.test_mac_ok.
  - vm_compute. lia.
  - vm_compute. reflexivity.
  - reflexivity.
  - vm_compute. discriminate.
Defined.

Lemma accepted_modification_is_forgery_witness :
  blob_authenticated example_blob_with_chain
  <> blob_authenticated example_blob
  /\ blob_tag example_blob_with_chain
     = mac_final (mac_key_of example_blob_with_chain example_key)
         (blob_authenticated example_blob_with_chain).
Proof.
  apply (accepted_modification_is_forgery example_blob
           example_blob_with_chain example_key
           (at_seconds_resolution example_session_with_chain)).
  - exact Examples.test_mac_ok.
  - vm_compute. lia.
  - vm_compute. reflexivity.
  - intros H. apply (f_equal (@length byte)) in H. vm_compute in H.
    discriminate.
  - vm_compute. reflexivity.
Defined.

Lemma PEM_round_trip_witness :
  exists s',
    Session_from_pem (PEM_encode example_session_with_chain) = Ok s'
    /\ same_fields example_session_with_chain s'.
Proof.
  apply PEM_round_trip.
  - exact test_pem_ok.
  - exact Examples.test_x509_ok.
  - exact Examples.test_clock_ok.
  - repeat split; vm_compute; congruence.
Defined.

Lemma session_age_monotone_witness :
  session_age example_session example_now
  <= session_age example_session (example_now + 5000000000).
Proof.
  apply session_age_monotone.
  - exact Examples.test_clock_ok.
  - vm_compute. congruence.
Defined.

Lemma stored_session_age_witness :
  exists s',
    Session_from_ber (DER_encode example_session) = Ok s'
    /\ session_age example_session example_now
       <= session_age s' example_now
       <= session_age example_session example_now + 1.
Proof.
  apply stored_session_age.
  - exact Examples.test_x509_ok.
  - exact Examples.test_clock_ok.
  - repeat split; vm_compute; congruence.
  - split; vm_compute; congruence.
Defined.

Example stored_session_looks_older :
  session_age example_session example_now = 2
  /\ session_age (at_seconds_resolution example_session) example_now = 3.
Proof. split; reflexivity. Qed.

Lemma new_session_age_witness :
  let s := Session_new 1332000000123456789 [Byte.x01; Byte.x02]
             (repeat Byte.xa5 48) (mk_Protocol_Version 3 3) 0x002F 0
             (Connection_Side_of_code 1) 0 [] []
             (mk_Server_Information "example.com" "https" 443) "" in
  session_age s 1332000000123456789 = 0
  /\ 0 <= session_age s example_now
  /\ session_age s example_now * system_clock_ticks_per_second
     <= example_now - 1332000000123456789
  /\ example_now - 1332000000123456789
     < (session_age s example_now + 1) * system_clock_ticks_per_second.
Proof.
  apply new_session_age.
  - exact Examples.test_clock_ok.
  - vm_compute. congruence.
Defined.

End Further_Examples.
